(** * gns3server.utils.asyncio.embed_shell

    A shallow embedding of [embed_shell.py]: the command shell
    ([EmbedShell] with [help], [_parse_command], [run], [get_commands]),
    the demo shell [Demo], the telnet output adapter [StreamWriter] and
    the scheduler facade [UnstopableEventLoop], followed by the properties
    established about them.

    Conventions.  A Python [str] is a Rocq [string] holding the UTF-8
    bytes of the text; [bytes] is [list byte].  Every separator the module
    searches for is ASCII (space, line feed, underscore), and an ASCII byte
    never occurs inside a multi-byte UTF-8 sequence, so [split], [replace],
    [strip] and [startswith] act on that representation exactly as they do
    on code points, and byte-wise lexicographic order is code point order.
    [encode] is then the identity on the payload and [decode] checks that
    the bytes are well-formed UTF-8. *)

From Stdlib Require Import List Bool Arith NArith Lia.
From Stdlib.Strings Require Import String Ascii Byte.
From Stdlib Require Import Permutation Sorted.
Import ListNotations.
Local Open Scope list_scope.
Local Open Scope string_scope.

(** ** Python values the module relies on *)

Module Py.

(** The exceptions raised along the paths that are modelled. *)
Inductive exn : Type :=
| TypeError
| IndexError
| AttributeError
| AssertionError
| RuntimeError
| ValueError
| UnicodeDecodeError
| NotImplementedError.

(** Outcome of a call: it returns a value or raises. *)
Inductive result (A : Type) : Type :=
| Return (a : A)
| Raise (e : exn).

Arguments Return {A} a.
Arguments Raise {A} e.

Definition bind {A B : Type} (r : result A) (k : A -> result B) : result B :=
  match r with
  | Return a => k a
  | Raise e => Raise e
  end.

(** Outcome of driving a coroutine with [yield from]: it is done, with
    the outcome of a call, or it has not finished (it is suspended at an
    await, or loops without ever executing a [return]). *)
Inductive awaited (A : Type) : Type :=
| Done (r : result A)
| Pending.

Arguments Done {A} r.
Arguments Pending {A}.

Definition bind_awaited {A B : Type} (r : awaited A) (k : A -> awaited B) : awaited B :=
  match r with
  | Done (Return a) => k a
  | Done (Raise e) => Done (Raise e)
  | Pending => Pending
  end.

(** Line feed, carriage return and the two-character replacement. *)
Definition LF : ascii := "010"%char.
Definition CR : ascii := "013"%char.
Definition nl : string := String LF EmptyString.
Definition crnl : string := String CR (String LF EmptyString).

(** [s.split(sep)] for a one-character separator: the list always has
    at least one element. *)
Fixpoint split (sep : ascii) (s : string) : list string :=
  match s with
  | EmptyString => [EmptyString]
  | String c s' =>
      if Ascii.eqb c sep then EmptyString :: split sep s'
      else match split sep s' with
           | h :: t => String c h :: t
           | [] => [String c EmptyString]
           end
  end.

(** [sep.join(l)]. *)
Definition join (sep : string) (l : list string) : string := String.concat sep l.

(** [s.startswith(p)]. *)
Definition startswith (p s : string) : bool := String.prefix p s.

(** [s.replace(old, new)]: every non-overlapping occurrence of [old],
    scanning from the left.  [skip] counts the characters of a matched
    occurrence that are still to be passed over. *)
Fixpoint replace_from (old new : string) (skip : nat) (s : string) : string :=
  match s with
  | EmptyString => EmptyString
  | String c s' =>
      match skip with
      | S k => replace_from old new k s'
      | O =>
          if String.prefix old s
          then new ++ replace_from old new (String.length old - 1) s'
          else String c (replace_from old new 0 s')
      end
  end.

Fixpoint intersperse (new : string) (s : string) : string :=
  match s with
  | EmptyString => new
  | String c s' => new ++ String c (intersperse new s')
  end.

Definition replace (old new s : string) : string :=
  match old with
  | EmptyString => intersperse new s
  | String _ _ => replace_from old new 0 s
  end.

(** [s.strip(chars)] for a one-character set. *)
Fixpoint lstrip (ch : ascii) (s : string) : string :=
  match s with
  | EmptyString => EmptyString
  | String c s' => if Ascii.eqb c ch then lstrip ch s' else s
  end.

Fixpoint rstrip (ch : ascii) (s : string) : string :=
  match s with
  | EmptyString => EmptyString
  | String c s' =>
      match rstrip ch s' with
      | EmptyString => if Ascii.eqb c ch then EmptyString else String c EmptyString
      | r => String c r
      end
  end.

Definition strip (ch : ascii) (s : string) : string := rstrip ch (lstrip ch s).

(** Truth value of an optional string ([None] and [''] are false). *)
Definition truthy (o : option string) : bool :=
  match o with
  | Some (String _ _) => true
  | _ => false
  end.

(** *** UTF-8 *)

Definition between (lo hi : N) (b : byte) : bool :=
  (N.leb lo (Byte.to_N b) && N.leb (Byte.to_N b) hi)%bool.

Definition continuation : byte -> bool := between 128 191.

(** Well-formed UTF-8 (shortest form, no surrogates, at most U+10FFFF):
    what the strict decoder of [bytes.decode()] accepts. *)
Fixpoint utf8_valid (bs : list byte) : bool :=
  match bs with
  | [] => true
  | b0 :: r0 =>
      if between 0 127 b0 then utf8_valid r0
      else
        match r0 with
        | [] => false
        | b1 :: r1 =>
            if between 194 223 b0 then continuation b1 && utf8_valid r1
            else
              match r1 with
              | [] => false
              | b2 :: r2 =>
                  if between 224 239 b0 then
                    (if between 224 224 b0 then between 160 191 b1
                     else if between 237 237 b0 then between 128 159 b1
                     else continuation b1)
                    && continuation b2 && utf8_valid r2
                  else
                    match r2 with
                    | [] => false
                    | b3 :: r3 =>
                        between 240 244 b0
                        && (if between 240 240 b0 then between 144 191 b1
                            else if between 244 244 b0 then between 128 143 b1
                            else continuation b1)
                        && continuation b2 && continuation b3 && utf8_valid r3
                    end
              end
        end
  end.

(** [s.encode()] and [b.decode()] with the default codec. *)
Definition encode (s : string) : list byte := list_byte_of_string s.

Definition decode (bs : list byte) : result string :=
  if utf8_valid bs then Return (string_of_list_byte bs)
  else Raise UnicodeDecodeError.

End Py.

Import Py.

Coercion Py.Done : Py.result >-> Py.awaited.

Notation "x <- c ;; k" := (Py.bind c (fun x => k))
  (at level 61, c at next level, right associativity).
Notation "x <~ c ;; k" := (Py.bind_awaited c (fun x => k))
  (at level 61, c at next level, right associativity).


(** ** The shell object and its members *)

(** What [inspect.getmembers(self)] can report for a shell: the three
    coroutines of [EmbedShell] itself, bound to the shell; a coroutine
    defined by a subclass, with the text [inspect.getdoc] gives for it and
    its behaviour on the argument list; any other callable, with the
    outcome of [yield from meth( *cmd)]; and attributes that are not
    callable (strings, [None], stream objects, evaluated properties). *)
Inductive member : Type :=
| Help
| ParseCommand
| Run
| Coroutine (doc : option string) (body : list string -> awaited string)
| Function (body : list string -> awaited string)
| Attribute.

(** The attributes of a shell object, in the order they were defined. *)
Definition namespace : Type := list (string * member).

(** Binding a name: a second definition of a name replaces the first. *)
Fixpoint define (name : string) (m : member) (ns : namespace) : namespace :=
  match ns with
  | [] => [(name, m)]
  | (n, v) :: ns' =>
      if n =? name then (name, m) :: ns' else (n, v) :: define name m ns'
  end.

Definition class_body (defs : list (string * member)) (base : namespace) : namespace :=
  fold_left (fun ns d => define (fst d) (snd d) ns) defs base.

Definition getattr (ns : namespace) (name : string) : option member :=
  option_map snd (find (fun nm => fst nm =? name) ns).

(** [inspect.getmembers]: the (name, value) pairs sorted by name. *)
Fixpoint insert_by_name (x : string * member) (l : namespace) : namespace :=
  match l with
  | [] => [x]
  | y :: l' => if fst x <=? fst y then x :: l else y :: insert_by_name x l'
  end.

Definition getmembers (ns : namespace) : namespace :=
  fold_right insert_by_name [] ns.

Definition isgeneratorfunction (m : member) : bool :=
  match m with
  | Help | ParseCommand | Run | Coroutine _ _ => true
  | Function _ | Attribute => false
  end.

Definition getdoc (m : member) : option string :=
  match m with
  | Help => Some "Show help"
  | Coroutine doc _ => doc
  | _ => None
  end.

(** ** EmbedShell *)

Definition help_header : string := "Help:" ++ nl.
Definition help_trailer : string :=
  nl ++ "help command for details about a command" ++ nl.

Definition first_line (doc : string) : string := hd EmptyString (split LF doc).

(** The test that makes [help] pass over a member. *)
Definition help_skips (args : list string) (name : string) : bool :=
  startswith "_" name
  || (negb (Nat.eqb (List.length args) 0) && negb (name =? hd EmptyString args))
  || (name =? "run").

(** One turn of the [for] loop of [help]. *)
Definition help_body (args : list string) (res : string) (nv : string * member) : string :=
  let (name, value) := nv in
  if negb (isgeneratorfunction value) then res
  else if help_skips args name then res
  else
    let doc := getdoc value in
    let res := res ++ name in
    let res :=
      match doc with
      | Some d =>
          if negb (Nat.eqb (List.length args) 0) && truthy doc then res ++ ": " ++ d
          else if truthy doc then res ++ ": " ++ first_line d
          else res
      | None => res
      end in
    res ++ nl.

Definition help (ns : namespace) (args : list string) : string :=
  let res := if Nat.eqb (List.length args) 0 then help_header else EmptyString in
  let res := fold_left (help_body args) (getmembers ns) res in
  if Nat.eqb (List.length args) 0 then res ++ help_trailer else res.

(** One turn of the loop of [get_commands]. *)
Definition get_commands_body (commands : list (string * option string))
    (nv : string * member) : list (string * option string) :=
  let (name, value) := nv in
  if negb (isgeneratorfunction value) then commands
  else if startswith "_" name || (name =? "run") then commands
  else (commands ++ [(name, getdoc value)])%list.

Definition get_commands (ns : namespace) : list (string * option string) :=
  fold_left get_commands_body (getmembers ns) [].

(** [meth( *cmd)] driven by [yield from].  [self_parse] is the dispatcher
    itself, reached when the member is [_parse_command], which takes
    exactly one text.  [run] takes no argument and, entered from here,
    starts a loop that never hands a value back.  Calling an attribute
    that is not callable is a [TypeError]. *)
Definition invoke (self_parse : string -> awaited string) (ns : namespace)
    (meth : member) (cmd : list string) : awaited string :=
  match meth with
  | Help => Return (help ns cmd)
  | ParseCommand =>
      match cmd with
      | [text] => self_parse text
      | _ => Raise TypeError
      end
  | Run =>
      match cmd with
      | [] => Pending
      | _ => Raise TypeError
      end
  | Coroutine _ body => body cmd
  | Function body => body cmd
  | Attribute => Raise TypeError
  end.

(** [self.help()]: attribute lookup, then a call without arguments. *)
Definition self_help (self_parse : string -> awaited string) (ns : namespace) : awaited string :=
  match getattr ns "help" with
  | Some meth => invoke self_parse ns meth []
  | None => Raise AttributeError
  end.

Definition not_found : string := "Command not found ".

Definition parse_command_body (self_parse : string -> awaited string)
    (ns : namespace) (text : string) : awaited string :=
  match split " " text with
  | [] => Raise IndexError
  | c0 :: rest =>
      let c0 := if c0 =? "?" then "help" else c0 in
      match find (fun nm => fst nm =? c0) (getmembers ns) with
      | Some (_, meth) => invoke self_parse ns meth rest
      | None =>
          res <~ self_help self_parse ns ;;
          Return (not_found ++ c0 ++ res)
      end
  end.

(** The dispatcher can re-enter itself through the member
    [_parse_command]; each re-entry is on one token of the line, hence on a
    shorter text, so the length of the line bounds the nesting. *)
Fixpoint parse_command_nested (depth : nat) (ns : namespace) (text : string) : awaited string :=
  parse_command_body
    (match depth with
     | O => fun _ => Raise RuntimeError
     | S d => parse_command_nested d ns
     end) ns text.

Definition _parse_command (ns : namespace) (text : string) : awaited string :=
  parse_command_nested (String.length text) ns text.

(** *** The classes of the module *)

(** The names that the module itself binds, in the order of the source.
    [__init__] returns [None], which [yield from] cannot iterate;
    [get_commands] returns a list of tuples, which the scheduler refuses
    as a yielded value.  The attributes every Python object inherits from
    [object] are all named [__x__]; they are left out of these tables and
    no statement below dispatches one of them. *)

Definition EmbedShell_class : namespace :=
  class_body
    [ ("__init__", Function (fun _ => Raise TypeError));
      ("writer", Attribute);
      ("reader", Attribute);
      ("prompt", Attribute);
      ("help", Help);
      ("_parse_command", ParseCommand);
      ("run", Run);
      ("get_commands",
        Function (fun cmd => match cmd with
                             | [] => Raise RuntimeError
                             | _ => Raise TypeError
                             end)) ]
    [].

(** The attributes [__init__] sets on the instance. *)
Definition instance_attributes : list (string * member) :=
  [ ("_loop", Attribute); ("_reader", Attribute); ("_writer", Attribute);
    ("_prompt", Attribute); ("_welcome_message", Attribute) ].

Definition EmbedShell_object : namespace :=
  class_body instance_attributes EmbedShell_class.

(** [Demo.hello]. *)
Definition hello (args : list string) : awaited string :=
  if negb (Nat.eqb (List.length args) 0) then Return (join " " args)
  else Return ("world" ++ nl).

Definition hello_doc : string :=
  "Hello world" ++ nl ++ nl
  ++ "This command accept arguments: hello tutu will display tutu".

Definition Demo_class : namespace :=
  class_body [ ("hello", Coroutine (Some hello_doc) hello) ] EmbedShell_class.

Definition Demo_object : namespace :=
  class_body instance_attributes Demo_class.

(** ** Streams *)

(** The part of [asyncio.StreamReader] the module uses: a byte buffer and
    the end-of-stream flag set by [feed_eof]. *)
Record StreamReader : Type := mkStream {
  _buffer : list byte;
  _eof : bool
}.

Definition _limit : N := 65536.

Definition StreamReader_feed_data (data : list byte) (r : StreamReader) : result StreamReader :=
  if _eof r then Raise AssertionError
  else
    match data with
    | [] => Return r
    | _ => Return (mkStream (_buffer r ++ data)%list (_eof r))
    end.

Definition feed_eof (r : StreamReader) : StreamReader := mkStream (_buffer r) true.

(** Position of the first line feed. *)
Fixpoint find_newline (bs : list byte) : option nat :=
  match bs with
  | [] => None
  | b :: bs' =>
      if Byte.eqb b x0a then Some 0
      else option_map S (find_newline bs')
  end.

(** [readline]: the bytes up to and including the first line feed; at end
    of stream whatever is left, possibly nothing; otherwise the reader
    waits for data.  A line longer than the limit is an error. *)
Definition readline (r : StreamReader) : awaited (list byte * StreamReader) :=
  match find_newline (_buffer r) with
  | Some i =>
      if N.ltb _limit (N.of_nat i) then Raise ValueError
      else Return (firstn (S i) (_buffer r), mkStream (skipn (S i) (_buffer r)) (_eof r))
  | None =>
      if N.ltb _limit (N.of_nat (List.length (_buffer r))) then Raise ValueError
      else if _eof r then Return (_buffer r, mkStream [] (_eof r))
      else Pending
  end.

(** [StreamWriter.feed_data]. *)
Definition StreamWriter_feed_data (data : list byte) (r : StreamReader) : result StreamReader :=
  data <- decode data ;;
  let data := replace nl crnl data in
  StreamReader_feed_data (encode data) r.

(** The object the shell writes to: a bare [asyncio.StreamReader]
    ([create_stdin_shell]) or a [StreamWriter] ([create_telnet_shell]). *)
Inductive output : Type :=
| PlainStream (r : StreamReader)
| StreamWriter (r : StreamReader).

Definition stream_of (w : output) : StreamReader :=
  match w with
  | PlainStream r | StreamWriter r => r
  end.

Definition feed_data (data : list byte) (w : output) : result output :=
  match w with
  | PlainStream r => r' <- StreamReader_feed_data data r ;; Return (PlainStream r')
  | StreamWriter r => r' <- StreamWriter_feed_data data r ;; Return (StreamWriter r')
  end.

(** [StreamWriter.write]. *)
Definition write (data : list byte) (r : StreamReader) : result StreamReader :=
  StreamWriter_feed_data data r.

(** ** The read-eval loop *)

Record EmbedShell : Type := mkShell {
  members : namespace;
  _reader : StreamReader;
  _writer : output;
  _prompt : string;
  _welcome_message : option string
}.

Definition set_writer (sh : EmbedShell) (w : output) : EmbedShell :=
  mkShell (members sh) (_reader sh) w (_prompt sh) (_welcome_message sh).

Definition set_reader (sh : EmbedShell) (r : StreamReader) : EmbedShell :=
  mkShell (members sh) r (_writer sh) (_prompt sh) (_welcome_message sh).

(** Where the coroutine [run] stands: about to begin an iteration,
    suspended in [readline], suspended inside a command, finished by an
    exception, or finished by returning. *)
Inductive status : Type :=
| Iterating (sh : EmbedShell)
| AwaitingLine (sh : EmbedShell)
| AwaitingCommand (sh : EmbedShell)
| Raised (e : exn)
| Returned.

Definition call {A : Type} (r : result A) (k : A -> status) : status :=
  match r with
  | Return a => k a
  | Raise e => Raised e
  end.

Definition await {A : Type} (r : awaited A) (suspended : status) (k : A -> status) : status :=
  match r with
  | Done r => call r k
  | Pending => suspended
  end.

(** The body of [while True]. *)
Definition run_iteration (sh : EmbedShell) : status :=
  call (feed_data (encode (_prompt sh)) (_writer sh)) (fun w =>
  let sh := set_writer sh w in
  await (readline (_reader sh)) (AwaitingLine sh) (fun lr =>
  let sh := set_reader sh (snd lr) in
  call (decode (fst lr)) (fun result =>
  let result := strip LF result in
  await (_parse_command (members sh) result) (AwaitingCommand sh) (fun res =>
  call (feed_data (encode res) (_writer sh)) (fun w =>
  Iterating (set_writer sh w)))))).

(** At most [n] turns of the loop; the loop has no [break] and [run] has
    no [return]. *)
Fixpoint run_loop (n : nat) (sh : EmbedShell) : status :=
  match n with
  | O => Iterating sh
  | S k =>
      match run_iteration sh with
      | Iterating sh' => run_loop k sh'
      | st => st
      end
  end.

Definition run (n : nat) (sh : EmbedShell) : status :=
  if truthy (_welcome_message sh) then
    call (feed_data (encode (match _welcome_message sh with
                             | Some m => m
                             | None => EmptyString
                             end)) (_writer sh))
         (fun w => run_loop n (set_writer sh w))
  else run_loop n sh.

(** ** The scheduler facade *)

(** The operations of the wrapped event loop that [UnstopableEventLoop]
    overrides.  [arguments] stands for the [*args, **kwargs] handed on. *)
Class EventLoop (L : Type) : Type := {
  arguments : Type;
  future : Type;
  loop_close : L -> L;
  loop_stop : L -> L;
  loop_run_in_executor : arguments -> L -> future * L;
  loop_call_from_executor : arguments -> L -> L;
  loop_add_reader : nat -> arguments -> L -> L;
  loop_remove_reader : nat -> L -> L
}.

Module Facade.
Section Facade.

Context {L : Type} `{EventLoop L}.

Record UnstopableEventLoop : Type := mkFacade { _loop : L }.

(** What a method hands back: [None] or the wrapped loop's future. *)
Inductive value : Type :=
| NoneValue
| Future (f : future).

Definition close (u : UnstopableEventLoop) : result (value * UnstopableEventLoop) :=
  Return (NoneValue, u).

Definition stop (u : UnstopableEventLoop) : result (value * UnstopableEventLoop) :=
  Return (NoneValue, u).

Definition run_in_executor (a : arguments) (u : UnstopableEventLoop)
  : result (value * UnstopableEventLoop) :=
  let (f, l) := loop_run_in_executor a (_loop u) in
  Return (Future f, mkFacade l).

Definition call_from_executor (a : arguments) (u : UnstopableEventLoop)
  : result (value * UnstopableEventLoop) :=
  Return (NoneValue, mkFacade (loop_call_from_executor a (_loop u))).

Definition add_reader (fd : nat) (callback : arguments) (u : UnstopableEventLoop)
  : result (value * UnstopableEventLoop) :=
  Raise NotImplementedError.

Definition remove_reader (fd : nat) (u : UnstopableEventLoop)
  : result (value * UnstopableEventLoop) :=
  Raise NotImplementedError.

(** A method call made by the embedded line editor. *)
Inductive call : Type :=
| Close
| Stop
| RunInExecutor (a : arguments)
| CallFromExecutor (a : arguments)
| AddReader (fd : nat) (callback : arguments)
| RemoveReader (fd : nat).

Inductive lifecycle : Type := LClose | LStop.

Definition lifecycle_call (c : lifecycle) : call :=
  match c with
  | LClose => Close
  | LStop => Stop
  end.

Definition perform (c : call) (u : UnstopableEventLoop) : result (value * UnstopableEventLoop) :=
  match c with
  | Close => close u
  | Stop => stop u
  | RunInExecutor a => run_in_executor a u
  | CallFromExecutor a => call_from_executor a u
  | AddReader fd cb => add_reader fd cb u
  | RemoveReader fd => remove_reader fd u
  end.

(** A series of calls; a call that raises leaves the facade as it was. *)
Fixpoint perform_all (cs : list call) (u : UnstopableEventLoop)
  : list (result value) * UnstopableEventLoop :=
  match cs with
  | [] => ([], u)
  | c :: cs' =>
      match perform c u with
      | Return (v, u') =>
          let (vs, u'') := perform_all cs' u' in (Return v :: vs, u'')
      | Raise e =>
          let (vs, u'') := perform_all cs' u in (Raise e :: vs, u'')
      end
  end.

(** The same call made on the wrapped loop itself. *)
Definition host_perform (c : call) (l : L) : L :=
  match c with
  | Close => loop_close l
  | Stop => loop_stop l
  | RunInExecutor a => snd (loop_run_in_executor a l)
  | CallFromExecutor a => loop_call_from_executor a l
  | AddReader fd cb => loop_add_reader fd cb l
  | RemoveReader fd => loop_remove_reader fd l
  end.

Definition forwarded (c : call) : bool :=
  match c with
  | RunInExecutor _ | CallFromExecutor _ => true
  | _ => false
  end.

End Facade.
Arguments UnstopableEventLoop L : clear implicits.
End Facade.

(** A host loop to run the facade against: whether it is running and
    open, and the work and the descriptors it has been given. *)
Record HostLoop : Type := mkHost {
  running : bool;
  closed : bool;
  executor_jobs : list nat;
  callbacks : list nat;
  readers : list (nat * nat)
}.

#[export] Instance HostLoop_EventLoop : EventLoop HostLoop := {|
  arguments := nat;
  future := nat;
  loop_close := fun l => mkHost (running l) true (executor_jobs l) (callbacks l) (readers l);
  loop_stop := fun l => mkHost false (closed l) (executor_jobs l) (callbacks l) (readers l);
  loop_run_in_executor := fun a l =>
    (List.length (executor_jobs l),
     mkHost (running l) (closed l) (executor_jobs l ++ [a])%list (callbacks l) (readers l));
  loop_call_from_executor := fun a l =>
    mkHost (running l) (closed l) (executor_jobs l) (callbacks l ++ [a])%list (readers l);
  loop_add_reader := fun fd cb l =>
    mkHost (running l) (closed l) (executor_jobs l) (callbacks l) ((fd, cb) :: readers l);
  loop_remove_reader := fun fd l =>
    mkHost (running l) (closed l) (executor_jobs l) (callbacks l)
      (filter (fun r => negb (Nat.eqb (fst r) fd)) (readers l))
|}.

(** ** Vocabulary of the statements *)

(** A member that [help] and [get_commands] count as a command: a
    coroutine whose name neither starts with an underscore nor is [run]. *)
Definition is_command (nv : string * member) : bool :=
  isgeneratorfunction (snd nv)
  && negb (startswith "_" (fst nv))
  && negb (fst nv =? "run").

Definition entry (nv : string * member) : string * option string :=
  (fst nv, getdoc (snd nv)).

(** The commands in the order in which their definitions were made. *)
Definition definition_order (ns : namespace) : list (string * option string) :=
  map entry (filter is_command ns).

(** The line of the listing for one command. *)
Definition short_line (nd : string * option string) : string :=
  match snd nd with
  | Some (String _ _ as d) => fst nd ++ ": " ++ first_line d ++ nl
  | _ => fst nd ++ nl
  end.

Definition concat_all (l : list string) : string :=
  fold_right String.append EmptyString l.

Definition name_le (a b : string * option string) : Prop :=
  (fst a <=? fst b) = true.

Definition member_le (a b : string * member) : Prop :=
  (fst a <=? fst b) = true.

(** The bytes of [data] with a carriage return put before each line feed. *)
Definition crlf (data : list byte) : list byte :=
  flat_map (fun b => if Byte.eqb b x0a then [x0d; x0a] else [b]) data.

(** A stream with [data] added to its buffer. *)
Definition extend (r : StreamReader) (data : list byte) : StreamReader :=
  mkStream (_buffer r ++ data)%list (_eof r).

(** The writer after it has taken [data]. *)
Definition fed (w : output) (data : list byte) : output :=
  match w with
  | PlainStream r => PlainStream (extend r data)
  | StreamWriter r => StreamWriter (extend r (crlf data))
  end.

(** Whether a writer takes [data]: it must not have been fed
    end-of-stream, and a [StreamWriter] must be able to decode [data]. *)
Definition accepts (w : output) (data : list byte) : bool :=
  negb (_eof (stream_of w))
  && match w with
     | PlainStream _ => true
     | StreamWriter _ => utf8_valid data
     end.

(** The answer to the empty line. *)
Definition empty_line_answer (sh : EmbedShell) : string :=
  not_found ++ help (members sh) [].

(** A turn of the loop that reads the empty line: the prompt and the
    answer are written, nothing else changes. *)
Definition spin (sh : EmbedShell) : EmbedShell :=
  set_writer sh
    (fed (fed (_writer sh) (encode (_prompt sh))) (encode (empty_line_answer sh))).

Definition welcome_text (sh : EmbedShell) : string :=
  match _welcome_message sh with
  | Some m => m
  | None => EmptyString
  end.

(** The shell once the welcome message, if any, has been written. *)
Definition greeted (sh : EmbedShell) : EmbedShell :=
  if truthy (_welcome_message sh)
  then set_writer sh (fed (_writer sh) (encode (welcome_text sh)))
  else sh.

(** The demo shell on the telnet path and on the stdin path, reading
    from [r]. *)
Definition Demo_telnet (r : StreamReader) : EmbedShell :=
  mkShell Demo_object r (StreamWriter (mkStream [] false)) "> " None.

Definition Demo_stdin (r : StreamReader) : EmbedShell :=
  mkShell Demo_object r (PlainStream (mkStream [] false)) "> " None.

(** A reader that has been fed end-of-stream and holds no more bytes. *)
Definition exhausted : StreamReader := mkStream [] true.

(** ** The front ends *)

(** [run] taken up again at the [readline] in which it was suspended:
    the rest of the body of the loop. *)
Definition resume (sh : EmbedShell) : status :=
  await (readline (_reader sh)) (AwaitingLine sh) (fun lr =>
  let sh := set_reader sh (snd lr) in
  call (decode (fst lr)) (fun result =>
  let result := strip LF result in
  await (_parse_command (members sh) result) (AwaitingCommand sh) (fun res =>
  call (feed_data (encode res) (_writer sh)) (fun w =>
  Iterating (set_writer sh w))))).

(** [feed_data((text + "\n").encode())] on the reader of the shell: how
    a completed line is handed over, in [CLIInputStream.write] and in
    [feed_stdin]. *)
Definition deliver (text : string) (r : StreamReader) : result StreamReader :=
  StreamReader_feed_data (encode (text ++ nl)) r.

(** The line editor as [CLIInputStream] uses it: the parser that is fed
    the decoded input, the test for a completed line and its text, and
    the four steps that make the editor ready for the next line. *)
Class LineEditor (E : Type) : Type := {
  inputstream_feed : string -> E -> E;
  is_returning : E -> bool;
  return_value_text : E -> string;
  cli_reset : E -> E;
  buffer_reset : E -> E;
  request_absolute_cursor_position : E -> E;
  _redraw : E -> E
}.

Record CLIInputStream (E : Type) : Type := mkCLI {
  _cli : E;
  cli_stream : StreamReader
}.

Arguments mkCLI {E} _ _.
Arguments _cli {E} _.
Arguments cli_stream {E} _.

(** [CLIInputStream.write]. *)
Definition CLIInputStream_write {E : Type} `{LineEditor E} (data : list byte)
    (s : CLIInputStream E) : result (CLIInputStream E) :=
  data <- decode data ;;
  let cli := inputstream_feed data (_cli s) in
  if is_returning cli then
    r <- deliver (return_value_text cli) (cli_stream s) ;;
    Return (mkCLI (_redraw (request_absolute_cursor_position (buffer_reset (cli_reset cli)))) r)
  else Return (mkCLI cli (cli_stream s)).

(** The shell as [create_telnet_shell] and [create_stdin_shell] leave it
    before [run] is scheduled: fresh streams, a [StreamWriter] for output
    on the telnet path. *)
Definition create_telnet_shell (shell : EmbedShell) : EmbedShell :=
  set_reader (set_writer shell (StreamWriter (mkStream [] false))) (mkStream [] false).

Definition create_stdin_shell (shell : EmbedShell) : EmbedShell :=
  set_writer (set_reader shell (mkStream [] false)) (PlainStream (mkStream [] false)).


(** [StreamReader.read(n)]: nothing for [n = 0]; otherwise up to [n]
    bytes, waiting while the buffer is empty and the stream is open. *)
Definition read (n : nat) (r : StreamReader) : awaited (list byte * StreamReader) :=
  match n with
  | O => Return ([], r)
  | S _ =>
      match _buffer r with
      | [] => if _eof r then Return ([], r) else Pending
      | _ => Return (firstn n (_buffer r), mkStream (skipn n (_buffer r)) (_eof r))
      end
  end.

(** [read_stdout]: the stream it copies from and what has been printed. *)
Record console : Type := mkConsole {
  copied_from : StreamReader;
  stdout : string
}.

Inductive copying : Type :=
| Copying (c : console)
| AwaitingOutput (c : console)
| CopyRaised (e : exn) (c : console).

Definition read_stdout_iteration (c : console) : copying :=
  match read 1 (copied_from c) with
  | Pending => AwaitingOutput c
  | Done (Raise e) => CopyRaised e c
  | Done (Return (b, r)) =>
      match decode b with
      | Return text => Copying (mkConsole r (stdout c ++ text))
      | Raise e => CopyRaised e (mkConsole r (stdout c))
      end
  end.

Fixpoint read_stdout (n : nat) (c : console) : copying :=
  match n with
  | O => Copying c
  | S k =>
      match read_stdout_iteration c with
      | Copying c' => read_stdout k c'
      | st => st
      end
  end.

(** ** More vocabulary *)

(** A line as the front ends deliver it: no line feed inside, text that
    decodes, and within the limit of [readline]. *)
Definition well_formed_line (l : string) : bool :=
  match find_newline (encode l) with
  | None => true
  | Some _ => false
  end
  && utf8_valid (encode l)
  && N.leb (N.of_nat (List.length (encode l))) _limit.

(** The bytes of the lines, each ended by a line feed. *)
Definition typed (lines : list string) : list byte :=
  flat_map (fun l => encode (l ++ nl)) lines.

(** What a writer puts in its buffer for [data]. *)
Definition transmit (w : output) (data : list byte) : list byte :=
  match w with
  | PlainStream _ => data
  | StreamWriter _ => crlf data
  end.

(** The writer after the prompt and then, for each answer, the answer
    and the prompt. *)
Fixpoint served (w : output) (prompt : string) (answers : list string) : output :=
  match answers with
  | [] => fed w (encode prompt)
  | a :: rest => served (fed (fed w (encode prompt)) (encode a)) prompt rest
  end.

Definition transcript (prompt : string) (answers : list string) : string :=
  prompt ++ concat_all (map (fun a => a ++ prompt) answers).

(** The line [help name] shows for a command. *)
Definition full_line (nd : string * option string) : string :=
  match snd nd with
  | Some (String _ _ as d) => fst nd ++ ": " ++ d ++ nl
  | _ => fst nd ++ nl
  end.

Definition is_ascii : byte -> bool := between 0 127.

(** A line editor to run [CLIInputStream] against: it collects the
    characters it is fed and reports the line as complete when it meets a
    carriage return. *)
Record SampleEditor : Type := mkEditor {
  edited : string;
  complete : bool
}.

Fixpoint sample_feed (data : string) (ed : SampleEditor) : SampleEditor :=
  match data with
  | EmptyString => ed
  | String c data' =>
      if complete ed then ed
      else if Ascii.eqb c CR then mkEditor (edited ed) true
      else sample_feed data' (mkEditor (edited ed ++ String c EmptyString) false)
  end.

#[export] Instance SampleEditor_LineEditor : LineEditor SampleEditor := {|
  inputstream_feed := sample_feed;
  is_returning := complete;
  return_value_text := edited;
  cli_reset := fun ed => mkEditor (edited ed) false;
  buffer_reset := fun ed => mkEditor EmptyString (complete ed);
  request_absolute_cursor_position := fun ed => ed;
  _redraw := fun ed => ed
|}.

(** * Properties *)

(** ** Strings *)

Lemma append_assoc (a b c : string) : (a ++ b) ++ c = a ++ (b ++ c).
Proof.
  induction a as [|ch a IH]; simpl; [reflexivity | now rewrite IH].
Qed.

Lemma append_empty_r (a : string) : a ++ "" = a.
Proof.
  induction a as [|ch a IH]; simpl; [reflexivity | now rewrite IH].
Qed.

Lemma split_not_nil (sep : ascii) (s : string) : split sep s <> [].
Proof.
  destruct s as [|c s]; simpl; [discriminate|].
  destruct (Ascii.eqb c sep); [discriminate|].
  destruct (split sep s); discriminate.
Qed.

(** ** [inspect.getmembers] *)

Lemma insert_by_name_perm (x : string * member) (l : namespace) :
  Permutation (insert_by_name x l) (x :: l).
Proof.
  induction l as [|y l IH]; simpl.
  - apply Permutation_refl.
  - destruct (fst x <=? fst y).
    + apply Permutation_refl.
    + eapply perm_trans; [apply perm_skip, IH | apply perm_swap].
Qed.

Lemma getmembers_perm (ns : namespace) : Permutation (getmembers ns) ns.
Proof.
  induction ns as [|x ns IH]; simpl.
  - apply perm_nil.
  - eapply perm_trans; [apply insert_by_name_perm | now apply perm_skip].
Qed.

Lemma getmembers_In (ns : namespace) (nv : string * member) :
  In nv (getmembers ns) <-> In nv ns.
Proof.
  split; apply Permutation_in;
    [apply getmembers_perm | apply Permutation_sym, getmembers_perm].
Qed.

Lemma insert_by_name_sorted (x : string * member) (l : namespace) :
  Sorted member_le l -> Sorted member_le (insert_by_name x l).
Proof.
  induction 1 as [|y l Hl IH Hy]; simpl.
  - repeat constructor.
  - destruct (fst x <=? fst y) eqn:E.
    + constructor; [now constructor | now constructor].
    + constructor; [exact IH|].
      assert (Hyx : member_le y x).
      { destruct (String.leb_total (fst x) (fst y)) as [H|H]; [congruence | exact H]. }
      destruct l as [|z l]; simpl.
      * now constructor.
      * destruct (fst x <=? fst z); constructor; [exact Hyx | now inversion Hy].
Qed.

Lemma getmembers_sorted (ns : namespace) : Sorted member_le (getmembers ns).
Proof.
  induction ns as [|x ns IH]; simpl; [constructor | now apply insert_by_name_sorted].
Qed.

(** The lexicographic order on strings is transitive. *)
Lemma ascii_compare_N (a b : ascii) :
  Ascii.compare a b = N.compare (N_of_ascii a) (N_of_ascii b).
Proof. reflexivity. Qed.

Lemma string_compare_refl (s : string) : String.compare s s = Eq.
Proof.
  induction s as [|c s IH]; simpl; [reflexivity|].
  rewrite ascii_compare_N, N.compare_refl. exact IH.
Qed.

Lemma string_lt_trans (a b c : string) :
  String.compare a b = Lt -> String.compare b c = Lt -> String.compare a c = Lt.
Proof.
  revert b c; induction a as [|x a IH]; intros [|y b] [|z c]; simpl;
    try discriminate; try reflexivity.
  rewrite !ascii_compare_N.
  destruct (N.compare_spec (N_of_ascii x) (N_of_ascii y)) as [E1|L1|G1];
    try discriminate;
    destruct (N.compare_spec (N_of_ascii y) (N_of_ascii z)) as [E2|L2|G2];
    try discriminate; intros H1 H2.
  - rewrite E1, E2, N.compare_refl. eapply IH; eassumption.
  - rewrite E1. apply N.compare_lt_iff in L2. now rewrite L2.
  - rewrite <- E2. apply N.compare_lt_iff in L1. now rewrite L1.
  - assert (L : (N_of_ascii x < N_of_ascii z)%N) by lia.
    apply N.compare_lt_iff in L. now rewrite L.
Qed.

Lemma string_leb_trans (a b c : string) :
  (a <=? b) = true -> (b <=? c) = true -> (a <=? c) = true.
Proof.
  unfold String.leb.
  destruct (String.compare a b) eqn:E1; try discriminate;
    destruct (String.compare b c) eqn:E2; try discriminate; intros _ _.
  - apply String.compare_eq_iff in E1, E2. subst. now rewrite string_compare_refl.
  - apply String.compare_eq_iff in E1. subst. now rewrite E2.
  - apply String.compare_eq_iff in E2. subst. now rewrite E1.
  - now rewrite (string_lt_trans _ _ _ E1 E2).
Qed.

Lemma getmembers_strongly_sorted (ns : namespace) :
  StronglySorted member_le (getmembers ns).
Proof.
  apply Sorted_StronglySorted; [|apply getmembers_sorted].
  intros a b c. unfold member_le. apply string_leb_trans.
Qed.

Lemma filter_perm {A : Type} (f : A -> bool) (l l' : list A) :
  Permutation l l' -> Permutation (filter f l) (filter f l').
Proof.
  induction 1 as [|x l l' _ IH|x y l|l l' l'' _ IH1 _ IH2]; simpl.
  - apply perm_nil.
  - destruct (f x); [now apply perm_skip | exact IH].
  - destruct (f x), (f y); try apply Permutation_refl. apply perm_swap.
  - eapply perm_trans; eassumption.
Qed.

Lemma filter_strongly_sorted {A : Type} (R : A -> A -> Prop) (f : A -> bool) (l : list A) :
  StronglySorted R l -> StronglySorted R (filter f l).
Proof.
  induction 1 as [|x l Hl IH Hx]; simpl; [constructor|].
  destruct (f x); [|exact IH].
  constructor; [exact IH|].
  rewrite Forall_forall in *. intros y Hy. apply filter_In in Hy. now apply Hx.
Qed.

Lemma entry_strongly_sorted (l : namespace) :
  StronglySorted member_le l -> StronglySorted name_le (map entry l).
Proof.
  induction 1 as [|x l Hl IH Hx]; simpl; constructor; [exact IH|].
  rewrite Forall_forall in *. intros y Hy.
  apply in_map_iff in Hy. destruct Hy as [z [<- Hz]]. exact (Hx z Hz).
Qed.

Lemma filter_names_NoDup (f : string * member -> bool) (l : namespace) :
  NoDup (map fst l) -> NoDup (map fst (filter f l)).
Proof.
  induction l as [|x l IH]; simpl; intros H; [constructor|].
  inversion H as [|? ? Hx Hl]; subst.
  destruct (f x); simpl; [|now apply IH].
  constructor; [|now apply IH].
  intros Hin. apply Hx.
  apply in_map_iff in Hin. destruct Hin as [y [E Hy]].
  apply filter_In in Hy. apply in_map_iff. exists y. tauto.
Qed.

(** ** [help] and [get_commands] as listings *)

Lemma help_skips_nil (name : string) :
  help_skips [] name = startswith "_" name || (name =? "run").
Proof. unfold help_skips. simpl. now rewrite orb_false_r. Qed.

Lemma help_body_nil (res : string) (nv : string * member) :
  help_body [] res nv =
  if is_command nv then res ++ short_line (entry nv) else res.
Proof.
  destruct nv as [name value].
  unfold help_body, is_command, short_line, entry. simpl fst; simpl snd.
  rewrite help_skips_nil.
  destruct (isgeneratorfunction value); simpl; [|reflexivity].
  destruct (startswith "_" name); simpl; [reflexivity|].
  destruct (name =? "run"); simpl; [reflexivity|].
  destruct (getdoc value) as [[|c d]|]; simpl;
    now rewrite ?append_assoc.
Qed.

Lemma help_loop_nil (l : namespace) (res : string) :
  fold_left (help_body []) l res =
  res ++ concat_all (map short_line (map entry (filter is_command l))).
Proof.
  revert res; induction l as [|nv l IH]; intros res; simpl.
  - now rewrite append_empty_r.
  - rewrite IH, help_body_nil.
    destruct (is_command nv); simpl; [now rewrite append_assoc | reflexivity].
Qed.

Lemma get_commands_loop (l : namespace) (acc : list (string * option string)) :
  fold_left get_commands_body l acc = (acc ++ map entry (filter is_command l))%list.
Proof.
  revert acc; induction l as [|[name value] l IH]; intros acc; simpl.
  - now rewrite app_nil_r.
  - rewrite IH. unfold get_commands_body, is_command. simpl fst; simpl snd.
    destruct (isgeneratorfunction value); simpl; [|reflexivity].
    destruct (startswith "_" name); simpl; [reflexivity|].
    destruct (name =? "run"); simpl; [reflexivity|].
    now rewrite <- app_assoc.
Qed.

Lemma get_commands_listing (ns : namespace) :
  get_commands ns = map entry (filter is_command (getmembers ns)).
Proof. unfold get_commands. now rewrite get_commands_loop. Qed.

Lemma help_listing (ns : namespace) :
  help ns [] =
  help_header ++ concat_all (map short_line (get_commands ns)) ++ help_trailer.
Proof.
  unfold help. simpl. now rewrite help_loop_nil, get_commands_listing, append_assoc.
Qed.

Lemma get_commands_perm (ns : namespace) :
  Permutation (get_commands ns) (definition_order ns).
Proof.
  rewrite get_commands_listing. unfold definition_order.
  apply Permutation_map, filter_perm, getmembers_perm.
Qed.

Lemma get_commands_sorted (ns : namespace) :
  StronglySorted name_le (get_commands ns).
Proof.
  rewrite get_commands_listing.
  apply entry_strongly_sorted, filter_strongly_sorted, getmembers_strongly_sorted.
Qed.

Lemma get_commands_NoDup (ns : namespace) :
  NoDup (map fst ns) -> NoDup (map fst (get_commands ns)).
Proof.
  intros H. rewrite get_commands_listing, map_map. simpl.
  change (fun x : string * member => fst x) with (@fst string member).
  apply filter_names_NoDup.
  eapply Permutation_NoDup; [|exact H].
  apply Permutation_map, Permutation_sym, getmembers_perm.
Qed.

(** ** Namespaces *)

Lemma define_names (name : string) (m : member) (ns : namespace) :
  forall x, In x (map fst (define name m ns)) <-> x = name \/ In x (map fst ns).
Proof.
  induction ns as [|[n v] ns IH]; simpl; intros x.
  - intuition.
  - destruct (String.eqb_spec n name) as [->|Hn]; simpl.
    + intuition.
    + rewrite IH. intuition.
Qed.

Lemma define_NoDup (name : string) (m : member) (ns : namespace) :
  NoDup (map fst ns) -> NoDup (map fst (define name m ns)).
Proof.
  induction ns as [|[n v] ns IH]; simpl; intros H.
  - repeat constructor. intros [].
  - inversion H as [|? ? Hn Hns]; subst.
    destruct (String.eqb_spec n name) as [->|Hne]; simpl.
    + now constructor.
    + constructor; [|now apply IH].
      rewrite define_names. intros [E|Hin]; [now apply Hne | now apply Hn].
Qed.

Lemma class_body_NoDup (defs : list (string * member)) (base : namespace) :
  NoDup (map fst base) -> NoDup (map fst (class_body defs base)).
Proof.
  unfold class_body. revert base.
  induction defs as [|d defs IH]; simpl; intros base H; [exact H|].
  now apply IH, define_NoDup.
Qed.

Lemma find_all_false {A : Type} (f : A -> bool) (l : list A) :
  (forall x, In x l -> f x = false) -> find f l = None.
Proof.
  induction l as [|x l IH]; simpl; intros H; [reflexivity|].
  rewrite (H x (or_introl eq_refl)). apply IH. intros y Hy. apply H. now right.
Qed.

Lemma getattr_None_getmembers (ns : namespace) (name : string) :
  getattr ns name = None ->
  find (fun nm => fst nm =? name) (getmembers ns) = None.
Proof.
  unfold getattr. intros H.
  destruct (find (fun nm => fst nm =? name) ns) eqn:E; [discriminate|].
  apply find_all_false. intros x Hx.
  exact (find_none _ _ E x (proj1 (getmembers_In ns x) Hx)).
Qed.

Lemma find_name_unique (l : namespace) (name : string) (m : member) :
  NoDup (map fst l) -> In (name, m) l ->
  find (fun nm => fst nm =? name) l = Some (name, m).
Proof.
  induction l as [|[n v] l IH]; simpl; intros Hnd Hin; [contradiction|].
  inversion Hnd as [|? ? Hn Hl]; subst.
  destruct Hin as [E|Hin].
  - inversion E; subst. now rewrite String.eqb_refl.
  - destruct (String.eqb_spec n name) as [->|Hne].
    + exfalso. apply Hn. apply in_map_iff. now exists (name, m).
    + now apply IH.
Qed.

Lemma getattr_Some_getmembers (ns : namespace) (name : string) (m : member) :
  NoDup (map fst ns) -> getattr ns name = Some m ->
  find (fun nm => fst nm =? name) (getmembers ns) = Some (name, m).
Proof.
  unfold getattr. intros Hnd H.
  destruct (find (fun nm => fst nm =? name) ns) as [[n v]|] eqn:E; [|discriminate].
  simpl in H. inversion H; subst v.
  destruct (find_some _ _ E) as [Hin Hn]. simpl in Hn.
  apply String.eqb_eq in Hn. subst n.
  apply find_name_unique.
  - eapply Permutation_NoDup; [|exact Hnd].
    apply Permutation_map, Permutation_sym, getmembers_perm.
  - exact (proj2 (getmembers_In ns (name, m)) Hin).
Qed.

(** ** The dispatcher *)

Lemma parse_command_nested_unfold (depth : nat) (ns : namespace) (text : string) :
  parse_command_nested depth ns text =
  parse_command_body
    (match depth with
     | O => fun _ => Done (Raise RuntimeError)
     | S d => parse_command_nested d ns
     end) ns text.
Proof. destruct depth; reflexivity. Qed.

(** The nesting bound of the dispatcher is never reached: a deeper bound
    gives the same outcome. *)
Lemma split_tokens_shorter (sep : ascii) (s t : string) :
  (In t (split sep s) -> String.length t <= String.length s)
  /\ (In t (tl (split sep s)) -> String.length t < String.length s).
Proof.
  revert t. induction s as [|c s IH]; intros t; simpl.
  - split; [intros [<-|[]]; simpl; lia | intros []].
  - destruct (Ascii.eqb c sep).
    + simpl. split.
      * intros [<-|Hin]; [simpl; lia|]. apply IH in Hin. lia.
      * intros Hin. apply IH in Hin. lia.
    + pose proof (split_not_nil sep s) as Hne.
      destruct (split sep s) as [|h tk] eqn:E; [contradiction|].
      simpl. split.
      * intros [<-|Hin].
        -- assert (String.length h <= String.length s)
             by (apply IH; now left).
           simpl. lia.
        -- assert (String.length t <= String.length s)
             by (apply IH; now right).
           lia.
      * intros Hin.
        assert (String.length t < String.length s) by (now apply IH).
        lia.
Qed.

Lemma invoke_ext (f g : string -> awaited string) (ns : namespace) (meth : member)
    (cmd : list string) :
  (forall t, In t cmd -> f t = g t) ->
  invoke f ns meth cmd = invoke g ns meth cmd.
Proof.
  intros H. destruct meth; simpl; try reflexivity.
  destruct cmd as [|t [|t' cmd]]; try reflexivity.
  apply H. now left.
Qed.

Lemma parse_command_body_ext (f g : string -> awaited string) (ns : namespace)
    (text : string) :
  (forall t, In t (tl (split " " text)) -> f t = g t) ->
  parse_command_body f ns text = parse_command_body g ns text.
Proof.
  intros H. unfold parse_command_body.
  destruct (split " " text) as [|c0 rest]; [reflexivity|]. simpl in H.
  destruct (find _ (getmembers ns)) as [[n meth]|].
  - now apply invoke_ext.
  - unfold self_help. destruct (getattr ns "help") as [meth|]; [|reflexivity].
    rewrite (invoke_ext f g ns meth []); [reflexivity | intros t []].
Qed.

Lemma parse_command_depth (n m : nat) (ns : namespace) (text : string) :
  String.length text <= n -> String.length text <= m ->
  parse_command_nested n ns text = parse_command_nested m ns text.
Proof.
  revert m text. induction n as [|n IH]; intros m text Hn Hm;
    rewrite !parse_command_nested_unfold;
    apply parse_command_body_ext; intros t Ht;
    apply (split_tokens_shorter " " text t) in Ht.
  - lia.
  - destruct m as [|m]; [lia|]. apply IH; lia.
Qed.

Lemma parse_command_any_depth (n : nat) (ns : namespace) (text : string) :
  String.length text <= n ->
  parse_command_nested n ns text = _parse_command ns text.
Proof. intros Hn. unfold _parse_command. now apply parse_command_depth. Qed.

(** A first token that is not the alias and names no attribute of the
    shell takes the not-found branch. *)
Lemma parse_command_unknown (ns : namespace) (text c0 : string) (rest : list string) :
  split " " text = c0 :: rest ->
  c0 <> "?" ->
  getattr ns c0 = None ->
  getattr ns "help" = Some Help ->
  _parse_command ns text = Return (not_found ++ c0 ++ help ns []).
Proof.
  intros Hs Hq Hc Hh. unfold _parse_command.
  rewrite parse_command_nested_unfold. unfold parse_command_body.
  rewrite Hs. apply String.eqb_neq in Hq. rewrite Hq.
  rewrite (getattr_None_getmembers _ _ Hc).
  unfold self_help. rewrite Hh. reflexivity.
Qed.

(** A first token that names a coroutine of a subclass hands the other
    tokens to it. *)
Lemma parse_command_coroutine (ns : namespace) (text c0 : string) (rest : list string)
    (doc : option string) (body : list string -> awaited string) :
  NoDup (map fst ns) ->
  split " " text = c0 :: rest ->
  c0 <> "?" ->
  getattr ns c0 = Some (Coroutine doc body) ->
  _parse_command ns text = body rest.
Proof.
  intros Hnd Hs Hq Hc. unfold _parse_command.
  rewrite parse_command_nested_unfold. unfold parse_command_body.
  rewrite Hs. apply String.eqb_neq in Hq. rewrite Hq.
  now rewrite (getattr_Some_getmembers _ _ _ Hnd Hc).
Qed.

(** [help] and its alias reach the built-in [help] with the other tokens. *)
Lemma parse_command_help (ns : namespace) (text c0 : string) (rest : list string) :
  NoDup (map fst ns) ->
  split " " text = c0 :: rest ->
  c0 = "help" \/ c0 = "?" ->
  getattr ns "help" = Some Help ->
  _parse_command ns text = Return (help ns rest).
Proof.
  intros Hnd Hs Hc Hh. unfold _parse_command.
  rewrite parse_command_nested_unfold. unfold parse_command_body.
  rewrite Hs.
  assert (E : (if c0 =? "?" then "help" else c0) = "help")
    by (destruct Hc; subst; reflexivity).
  rewrite E. now rewrite (getattr_Some_getmembers _ _ _ Hnd Hh).
Qed.

(** [help] with an argument that names no command adds nothing to the
    empty string it starts from. *)
Lemma help_body_unmatched (a : string) (rest : list string) (res : string)
    (nv : string * member) :
  (is_command nv = true -> fst nv <> a) ->
  help_body (a :: rest) res nv = res.
Proof.
  destruct nv as [name value]. unfold help_body, help_skips, is_command.
  simpl fst; simpl snd. simpl.
  destruct (isgeneratorfunction value); simpl; [|reflexivity].
  destruct (startswith "_" name); simpl; [reflexivity|].
  destruct (String.eqb_spec name a) as [->|Hne]; simpl; [|reflexivity].
  destruct (a =? "run"); simpl; [reflexivity|].
  intros H. now exfalso; apply H.
Qed.

Lemma help_unmatched (ns : namespace) (a : string) (rest : list string) :
  ~ In a (map fst (get_commands ns)) ->
  help ns (a :: rest) = "".
Proof.
  intros Hna. unfold help. simpl.
  assert (H : forall nv, In nv (getmembers ns) -> is_command nv = true -> fst nv <> a).
  { intros nv Hin Hc E. apply Hna. rewrite get_commands_listing.
    apply in_map_iff. exists (entry nv). split; [exact E|].
    apply in_map, filter_In. now split. }
  revert H. generalize (getmembers ns) as l. generalize "" as res.
  intros res l; revert res; induction l as [|nv l IH]; intros res H; simpl.
  - reflexivity.
  - rewrite help_body_unmatched.
    + apply IH. intros x Hx. apply H. now right.
    + apply H. now left.
Qed.

Lemma Demo_object_NoDup : NoDup (map fst Demo_object).
Proof. repeat apply class_body_NoDup. constructor. Qed.

(** ** Dispatch of unknown and of private names *)

(** C1 (code defect).  The dispatcher looks the first token up among all
    the attributes of the shell, not among its commands: ["_prompt"] is
    no command of the demo shell, yet dispatching it does not give the
    not-found text; it calls the prompt string and fails with
    [TypeError]. *)
Theorem dispatch_reaches_private_attribute :
  ~ In "_prompt" (map fst (get_commands Demo_object))
  /\ _parse_command Demo_object "_prompt" = Raise TypeError
  /\ _parse_command Demo_object "_prompt"
     <> Return (not_found ++ "_prompt" ++ help Demo_object []).
Proof.
  split; [|split].
  - vm_compute. intuition discriminate.
  - vm_compute. reflexivity.
  - vm_compute. discriminate.
Qed.

(** C9 (code defect).  Splitting a line never gives an empty list, so the
    first token always exists; but dispatch is not total: on the demo
    shell the line ["prompt"] names the evaluated [prompt] property, a
    string, and calling it raises [TypeError]. *)
Theorem dispatch_raises_on_attribute :
  (forall text, split " " text <> [])
  /\ ~ In "prompt" (map fst (get_commands Demo_object))
  /\ _parse_command Demo_object "prompt" = Raise TypeError.
Proof.
  split; [|split].
  - intros text. apply split_not_nil.
  - vm_compute. intuition discriminate.
  - vm_compute. reflexivity.
Qed.

(** C10.  The empty line splits into the single token [""]; on a shell
    that has no attribute of that name and whose [help] is the built-in
    one, the answer is ["Command not found "] followed by the listing
    [help] gives without arguments. *)
Theorem dispatch_empty_line (ns : namespace) :
  getattr ns "" = None ->
  getattr ns "help" = Some Help ->
  split " " "" = [""]
  /\ _parse_command ns "" = Return ("Command not found " ++ help ns []).
Proof.
  intros Hc Hh. split; [reflexivity|].
  now apply (parse_command_unknown ns "" "" []).
Qed.

Lemma dispatch_empty_line_witness :
  getattr Demo_object "" = None
  /\ getattr Demo_object "help" = Some Help
  /\ split " " "" = [""]
  /\ _parse_command Demo_object ""
     = Return ("Command not found " ++ help Demo_object []).
Proof.
  split; [reflexivity|]. split; [reflexivity|].
  apply (dispatch_empty_line Demo_object); reflexivity.
Defined.

(** ** The demo command *)

(** C2 (code defect).  [hello] answers ["world\n"] without arguments, but
    with arguments it answers them joined by single spaces and nothing
    more: the line ["hello tutu"] yields ["tutu"], without the line feed
    that ends the other answer. *)
Theorem hello_joins_without_newline :
  hello [] = Return ("world" ++ nl)
  /\ (forall a args, hello (a :: args) = Return (join " " (a :: args)))
  /\ _parse_command Demo_object "hello" = Return ("world" ++ nl)
  /\ _parse_command Demo_object "hello tutu" = Return "tutu"
  /\ _parse_command Demo_object "hello tutu" <> Return ("tutu" ++ nl).
Proof.
  repeat split; try reflexivity.
  vm_compute. discriminate.
Qed.

(** ** The help listing *)

(** C3, the claim as stated fails: in the demo shell [help] is defined
    before [hello], and the listing shows [hello] first. *)
Lemma help_not_in_definition_order :
  map fst (definition_order Demo_object) = ["help"; "hello"]
  /\ help Demo_object []
     <> help_header
        ++ concat_all (map short_line (definition_order Demo_object))
        ++ help_trailer.
Proof.
  split; [reflexivity|]. vm_compute. discriminate.
Qed.

(** C3 (amended).  [help] without arguments is ["Help:\n"], one line per
    command, and the trailer; the commands are those that were defined,
    each once, in ascending order of their names (the order of
    [inspect.getmembers]); a line is [name: first line of the doc], or the
    bare name when there is no doc. *)
Theorem help_lists_commands_by_name (ns : namespace) :
  NoDup (map fst ns) ->
  help ns []
  = "Help:" ++ nl
    ++ concat_all (map short_line (get_commands ns))
    ++ nl ++ "help command for details about a command" ++ nl
  /\ Permutation (get_commands ns) (definition_order ns)
  /\ NoDup (map fst (get_commands ns))
  /\ StronglySorted name_le (get_commands ns).
Proof.
  intros Hnd. split; [|split; [|split]].
  - rewrite help_listing. unfold help_header, help_trailer.
    now rewrite !append_assoc.
  - apply get_commands_perm.
  - now apply get_commands_NoDup.
  - apply get_commands_sorted.
Qed.

Lemma help_lists_commands_by_name_witness :
  NoDup (map fst Demo_object)
  /\ help Demo_object []
     = "Help:" ++ nl
       ++ concat_all (map short_line (get_commands Demo_object))
       ++ nl ++ "help command for details about a command" ++ nl
  /\ Permutation (get_commands Demo_object) (definition_order Demo_object)
  /\ NoDup (map fst (get_commands Demo_object))
  /\ StronglySorted name_le (get_commands Demo_object).
Proof.
  split; [exact Demo_object_NoDup|].
  exact (help_lists_commands_by_name Demo_object Demo_object_NoDup).
Defined.

(** C4, the claim as stated fails: ["bogus"] is no command of the demo
    shell, and ["help bogus"] is answered by the empty string, not by the
    not-found text that ["bogus"] receives. *)
Lemma help_unknown_is_not_not_found :
  ~ In "bogus" (map fst (get_commands Demo_object))
  /\ _parse_command Demo_object "bogus"
     = Return (not_found ++ "bogus" ++ help Demo_object [])
  /\ _parse_command Demo_object "help bogus" = Return ""
  /\ _parse_command Demo_object "help bogus" <> _parse_command Demo_object "bogus".
Proof.
  split; [|split; [|split]].
  - vm_compute. intuition discriminate.
  - vm_compute. reflexivity.
  - vm_compute. reflexivity.
  - vm_compute. discriminate.
Qed.

(** C4 (amended).  [help] with an argument that names no command returns
    the empty string: no header, no line, no trailer; a line [help x] or
    [? x] with such an [x] is therefore answered by the empty string. *)
Theorem help_unknown_argument_is_empty (ns : namespace) (text c0 a : string)
    (rest : list string) :
  NoDup (map fst ns) ->
  getattr ns "help" = Some Help ->
  split " " text = c0 :: a :: rest ->
  c0 = "help" \/ c0 = "?" ->
  ~ In a (map fst (get_commands ns)) ->
  help ns (a :: rest) = ""
  /\ _parse_command ns text = Return "".
Proof.
  intros Hnd Hh Hs Hc Ha.
  pose proof (help_unmatched ns a rest Ha) as E.
  split; [exact E|].
  rewrite (parse_command_help ns text c0 (a :: rest) Hnd Hs Hc Hh). now rewrite E.
Qed.

Lemma help_unknown_argument_is_empty_witness :
  help Demo_object ["bogus"] = ""
  /\ _parse_command Demo_object "help bogus" = Return "".
Proof.
  apply (help_unknown_argument_is_empty Demo_object "help bogus" "help" "bogus" []).
  - exact Demo_object_NoDup.
  - reflexivity.
  - reflexivity.
  - now left.
  - vm_compute. intuition discriminate.
Defined.

(** ** The output adapter *)

Lemma prefix_empty (s : string) : String.prefix "" s = true.
Proof. destruct s; reflexivity. Qed.

Lemma replace_nl_cons (c : ascii) (s : string) :
  replace nl crnl (String c s) =
  if Ascii.eqb c LF then crnl ++ replace nl crnl s
  else String c (replace nl crnl s).
Proof.
  unfold replace, nl.
  change (replace_from (String LF "") crnl 0 (String c s))
    with (if (if ascii_dec LF c then String.prefix "" s else false)
          then crnl ++ replace_from (String LF "") crnl 0 s
          else String c (replace_from (String LF "") crnl 0 s)).
  destruct (ascii_dec LF c) as [<-|Hne].
  - now rewrite prefix_empty, Ascii.eqb_refl.
  - destruct (Ascii.eqb_spec c LF) as [->|_]; [now contradiction Hne | reflexivity].
Qed.

Lemma byte_eqb_newline (b : byte) :
  Byte.eqb b x0a = Ascii.eqb (ascii_of_byte b) LF.
Proof.
  destruct (Ascii.eqb_spec (ascii_of_byte b) LF) as [E|Hne].
  - apply Byte.byte_dec_lb. rewrite <- (byte_of_ascii_of_byte b), E. reflexivity.
  - destruct (Byte.eqb b x0a) eqn:E; [|reflexivity].
    apply Byte.byte_dec_bl in E. subst b. now contradiction Hne.
Qed.

Lemma crlf_replace (data : list byte) :
  encode (replace nl crnl (string_of_list_byte data)) = crlf data.
Proof.
  induction data as [|b data IH]; [reflexivity|].
  change (string_of_list_byte (b :: data))
    with (String (ascii_of_byte b) (string_of_list_byte data)).
  rewrite replace_nl_cons. simpl crlf. rewrite byte_eqb_newline.
  destruct (Ascii.eqb_spec (ascii_of_byte b) LF) as [E|Hne].
  - change (encode (crnl ++ replace nl crnl (string_of_list_byte data)))
      with (x0d :: x0a :: encode (replace nl crnl (string_of_list_byte data))).
    now rewrite IH.
  - change (encode (String (ascii_of_byte b) (replace nl crnl (string_of_list_byte data))))
      with (byte_of_ascii (ascii_of_byte b)
              :: encode (replace nl crnl (string_of_list_byte data))).
    now rewrite IH, byte_of_ascii_of_byte.
Qed.

Example utf8_valid_samples :
  utf8_valid [xc3; xa9] = true
  /\ utf8_valid [xe2; x82; xac] = true
  /\ utf8_valid [xf0; x9f; x98; x80] = true
  /\ utf8_valid [xc0; x80] = false
  /\ utf8_valid [xed; xa0; x80] = false
  /\ utf8_valid [xf4; x90; x80; x80] = false
  /\ utf8_valid [xe2; x82] = false
  /\ StreamWriter_feed_data [xff] (mkStream [] false) = Raise UnicodeDecodeError.
Proof. repeat split. Qed.

Lemma StreamReader_feed_data_open (data : list byte) (r : StreamReader) :
  _eof r = false -> StreamReader_feed_data data r = Return (extend r data).
Proof.
  intros H. unfold StreamReader_feed_data, extend. rewrite H.
  destruct data; [|reflexivity].
  destruct r as [buf e]. simpl in *. subst e. now rewrite app_nil_r.
Qed.

Lemma StreamReader_feed_data_Return (data : list byte) (r r' : StreamReader) :
  StreamReader_feed_data data r = Return r' -> _eof r = false /\ r' = extend r data.
Proof.
  intros H. destruct (_eof r) eqn:E.
  - unfold StreamReader_feed_data in H. rewrite E in H. discriminate.
  - rewrite (StreamReader_feed_data_open data r E) in H. now inversion H.
Qed.

Lemma StreamWriter_feed_data_open (data : list byte) (r : StreamReader) :
  utf8_valid data = true -> _eof r = false ->
  StreamWriter_feed_data data r = Return (extend r (crlf data)).
Proof.
  intros Hv He. unfold StreamWriter_feed_data, decode. rewrite Hv.
  unfold bind. now rewrite crlf_replace, StreamReader_feed_data_open.
Qed.

Lemma StreamWriter_feed_data_Return (data : list byte) (r r' : StreamReader) :
  StreamWriter_feed_data data r = Return r' ->
  utf8_valid data = true /\ _eof r = false /\ r' = extend r (crlf data).
Proof.
  unfold StreamWriter_feed_data, decode.
  destruct (utf8_valid data); unfold bind; [|discriminate].
  rewrite crlf_replace. intros H.
  apply StreamReader_feed_data_Return in H. tauto.
Qed.

Lemma feed_data_accepts (data : list byte) (w : output) :
  accepts w data = true -> feed_data data w = Return (fed w data).
Proof.
  unfold accepts. intros H. apply andb_prop in H. destruct H as [He Hv].
  apply negb_true_iff in He.
  destruct w as [r|r]; simpl in *.
  - now rewrite StreamReader_feed_data_open.
  - now rewrite StreamWriter_feed_data_open.
Qed.

Lemma accepts_fed (w : output) (data data' : list byte) :
  accepts (fed w data) data' = accepts w data'.
Proof. destruct w; reflexivity. Qed.

(** C8.  What is written to a [StreamWriter] that can decode it reaches
    the buffer with a carriage return before every line feed and every
    other byte as it was; [write] does the same; ["world\n"] is sent as
    ["world\r\n"]. *)
Theorem telnet_output_rewrites_newlines (data : list byte) (w : StreamReader) :
  utf8_valid data = true ->
  _eof w = false ->
  StreamWriter_feed_data data w
  = Return (mkStream (_buffer w ++ crlf data) (_eof w))
  /\ write data w = StreamWriter_feed_data data w
  /\ feed_data (encode ("world" ++ nl)) (StreamWriter (mkStream [] false))
     = Return (StreamWriter (mkStream (encode ("world" ++ crnl)) false)).
Proof.
  intros Hv He. split; [|split].
  - now apply StreamWriter_feed_data_open.
  - reflexivity.
  - reflexivity.
Qed.

Lemma telnet_output_rewrites_newlines_witness :
  StreamWriter_feed_data (encode ("a" ++ nl ++ nl ++ "b" ++ crnl)) (mkStream [x3e] false)
  = Return (mkStream (x3e :: encode ("a" ++ crnl ++ crnl ++ "b" ++ String CR crnl)) false).
Proof.
  apply (telnet_output_rewrites_newlines
           (encode ("a" ++ nl ++ nl ++ "b" ++ crnl)) (mkStream [x3e] false));
    reflexivity.
Defined.

(** ** The read-eval loop at end of stream *)

Lemma readline_exhausted : readline exhausted = Return ([], exhausted).
Proof. reflexivity. Qed.

Lemma run_iteration_exhausted (sh : EmbedShell) :
  _reader sh = exhausted ->
  getattr (members sh) "" = None ->
  getattr (members sh) "help" = Some Help ->
  accepts (_writer sh) (encode (_prompt sh)) = true ->
  accepts (_writer sh) (encode (empty_line_answer sh)) = true ->
  run_iteration sh = Iterating (spin sh).
Proof.
  intros Hr Hc Hh Hp Ha. unfold run_iteration.
  rewrite (feed_data_accepts _ _ Hp). unfold call at 1.
  cbn [set_writer _reader members _writer].
  rewrite Hr, readline_exhausted. unfold await at 1, call at 1.
  cbn [fst snd set_reader set_writer _reader members _writer _prompt _welcome_message].
  change (decode []) with (Return ""). unfold call at 1.
  change (strip LF "") with "".
  rewrite (parse_command_unknown (members sh) "" "" [] eq_refl
             ltac:(discriminate) Hc Hh).
  unfold await, call.
  rewrite feed_data_accepts by (now rewrite accepts_fed).
  unfold spin, set_writer, empty_line_answer. cbn [_reader members _writer _prompt _welcome_message].
  now rewrite <- Hr.
Qed.

Lemma spin_invariant (sh : EmbedShell) :
  _reader (spin sh) = _reader sh
  /\ members (spin sh) = members sh
  /\ _prompt (spin sh) = _prompt sh
  /\ empty_line_answer (spin sh) = empty_line_answer sh
  /\ forall data, accepts (_writer (spin sh)) data = accepts (_writer sh) data.
Proof.
  repeat split. intros data. unfold spin. cbn [set_writer _writer].
  now rewrite !accepts_fed.
Qed.

Lemma run_loop_exhausted (n : nat) (sh : EmbedShell) :
  _reader sh = exhausted ->
  getattr (members sh) "" = None ->
  getattr (members sh) "help" = Some Help ->
  accepts (_writer sh) (encode (_prompt sh)) = true ->
  accepts (_writer sh) (encode (empty_line_answer sh)) = true ->
  run_loop n sh = Iterating (Nat.iter n spin sh)
  /\ _reader (Nat.iter n spin sh) = exhausted.
Proof.
  revert sh. induction n as [|n IH]; intros sh Hr Hc Hh Hp Ha.
  - now split.
  - destruct (spin_invariant sh) as (Sr & Sm & Sp & Sa & Sw).
    assert (E : Nat.iter (S n) spin sh = Nat.iter n spin (spin sh)).
    { clear. induction n as [|n IHn]; [reflexivity|]. simpl in *. now rewrite IHn. }
    rewrite E. cbn [run_loop].
    rewrite (run_iteration_exhausted sh Hr Hc Hh Hp Ha).
    apply IH.
    + now rewrite Sr.
    + now rewrite Sm.
    + now rewrite Sm.
    + now rewrite Sw, Sp.
    + now rewrite Sw, Sa.
Qed.

Lemma run_greeted (n : nat) (sh : EmbedShell) :
  accepts (_writer sh) (encode (welcome_text sh)) = true ->
  run n sh = run_loop n (greeted sh).
Proof.
  intros Hw. unfold run, greeted, welcome_text in *.
  destruct (truthy (_welcome_message sh)); [|reflexivity].
  now rewrite (feed_data_accepts _ _ Hw).
Qed.

Lemma greeted_invariant (sh : EmbedShell) :
  _reader (greeted sh) = _reader sh
  /\ members (greeted sh) = members sh
  /\ _prompt (greeted sh) = _prompt sh
  /\ empty_line_answer (greeted sh) = empty_line_answer sh
  /\ forall data, accepts (_writer (greeted sh)) data = accepts (_writer sh) data.
Proof.
  unfold greeted. destruct (truthy (_welcome_message sh)); repeat split.
  intros data. cbn [set_writer _writer]. now rewrite accepts_fed.
Qed.

(** The loop has no exit: whatever happens, [run] does not return. *)
Lemma run_iteration_not_Returned (sh : EmbedShell) : run_iteration sh <> Returned.
Proof.
  unfold run_iteration, await, call.
  repeat match goal with
         | |- context [match ?x with _ => _ end] => destruct x
         end; discriminate.
Qed.

Lemma run_loop_not_Returned (n : nat) (sh : EmbedShell) : run_loop n sh <> Returned.
Proof.
  revert sh. induction n as [|n IH]; intros sh; simpl; [discriminate|].
  pose proof (run_iteration_not_Returned sh) as H.
  destruct (run_iteration sh); try discriminate; [apply IH | contradiction].
Qed.

Lemma run_not_Returned (n : nat) (sh : EmbedShell) : run n sh <> Returned.
Proof.
  unfold run, call.
  destruct (truthy (_welcome_message sh)); [|apply run_loop_not_Returned].
  destruct (feed_data _ _); [apply run_loop_not_Returned | discriminate].
Qed.

(** C5, the claim as stated fails: the demo shell on the telnet path,
    with its reader at end of stream, does not stop; each turn reads the
    empty line, writes the prompt and the not-found answer, and the next
    turn begins in the same situation. *)
Lemma run_continues_at_end_of_stream :
  readline exhausted = Return ([], exhausted)
  /\ run_iteration (Demo_telnet exhausted) = Iterating (spin (Demo_telnet exhausted))
  /\ run 3 (Demo_telnet exhausted)
     = Iterating (spin (spin (spin (Demo_telnet exhausted))))
  /\ _reader (spin (spin (spin (Demo_telnet exhausted)))) = exhausted
  /\ forall n, run n (Demo_telnet exhausted) <> Returned.
Proof.
  split; [reflexivity|]. split; [vm_compute; reflexivity|].
  split; [vm_compute; reflexivity|]. split; [reflexivity|].
  intros n. apply run_not_Returned.
Qed.

(** C5 (amended).  When the reader is at end of stream with nothing left,
    [readline] gives the empty bytes at once and the loop goes on: every
    turn dispatches the empty line and writes the prompt and the
    not-found answer, so after any number of turns [run] is about to
    begin another one, the reader still at end of stream.  [run] never
    returns; only an exception or a cancellation ends it. *)
Theorem run_spins_at_end_of_stream (sh : EmbedShell) (n : nat) :
  _reader sh = exhausted ->
  getattr (members sh) "" = None ->
  getattr (members sh) "help" = Some Help ->
  accepts (_writer sh) (encode (welcome_text sh)) = true ->
  accepts (_writer sh) (encode (_prompt sh)) = true ->
  accepts (_writer sh) (encode (empty_line_answer sh)) = true ->
  run n sh = Iterating (Nat.iter n spin (greeted sh))
  /\ _reader (Nat.iter n spin (greeted sh)) = exhausted
  /\ run n sh <> Returned.
Proof.
  intros Hr Hc Hh Hw Hp Ha.
  destruct (greeted_invariant sh) as (Gr & Gm & Gp & Ga & Gw).
  rewrite (run_greeted n sh Hw).
  destruct (run_loop_exhausted n (greeted sh)) as [E R].
  - now rewrite Gr.
  - now rewrite Gm.
  - now rewrite Gm.
  - now rewrite Gw, Gp.
  - now rewrite Gw, Ga.
  - split; [exact E|]. split; [exact R|]. rewrite E. discriminate.
Qed.

Lemma run_spins_at_end_of_stream_witness :
  run 2 (Demo_stdin exhausted)
  = Iterating (Nat.iter 2 spin (greeted (Demo_stdin exhausted)))
  /\ _reader (Nat.iter 2 spin (greeted (Demo_stdin exhausted))) = exhausted
  /\ run 2 (Demo_stdin exhausted) <> Returned.
Proof.
  apply (run_spins_at_end_of_stream (Demo_stdin exhausted) 2); reflexivity.
Defined.

(** ** The scheduler facade *)

Section FacadeProperties.

Context {L : Type} `{EventLoop L}.

Lemma perform_lifecycle (c : Facade.lifecycle) (u : Facade.UnstopableEventLoop L) :
  Facade.perform (Facade.lifecycle_call c) u = Return (Facade.NoneValue, u).
Proof. destruct c; reflexivity. Qed.

Lemma perform_all_lifecycle (cs : list Facade.lifecycle) (u : Facade.UnstopableEventLoop L) :
  Facade.perform_all (map Facade.lifecycle_call cs) u
  = (map (fun _ => Return Facade.NoneValue) cs, u).
Proof.
  induction cs as [|c cs IH]; simpl; [reflexivity|].
  now rewrite perform_lifecycle, IH.
Qed.

Lemma perform_host (c : Facade.call) (u : Facade.UnstopableEventLoop L) :
  match Facade.perform c u with
  | Return (_, u') =>
      Facade._loop u' =
      if Facade.forwarded c then Facade.host_perform c (Facade._loop u)
      else Facade._loop u
  | Raise _ => Facade.forwarded c = false
  end.
Proof.
  destruct c; simpl; try reflexivity.
  unfold Facade.run_in_executor.
  now destruct (loop_run_in_executor a (Facade._loop u)).
Qed.

Lemma perform_all_host (cs : list Facade.call) (u : Facade.UnstopableEventLoop L) :
  Facade._loop (snd (Facade.perform_all cs u))
  = fold_left (fun l c => Facade.host_perform c l)
      (filter Facade.forwarded cs) (Facade._loop u).
Proof.
  revert u. induction cs as [|c cs IH]; intros u; [reflexivity|].
  cbn [Facade.perform_all filter].
  pose proof (perform_host c u) as P.
  destruct (Facade.perform c u) as [[v u']|e].
  - specialize (IH u'). destruct (Facade.perform_all cs u') as [vs u''].
    cbn [snd] in *. rewrite IH, P.
    now destruct (Facade.forwarded c).
  - specialize (IH u). destruct (Facade.perform_all cs u) as [vs u''].
    cbn [snd] in *. now rewrite IH, P.
Qed.

(** C6.  [stop] and [close] return [None] and leave the facade and the
    loop it wraps exactly as they were, however many times and in whatever
    order they are called; in any series of calls the wrapped loop sees
    the [run_in_executor] and [call_from_executor] calls and nothing else,
    and each of those two is handed on with its arguments, the future of
    the first being returned. *)
Theorem lifecycle_calls_are_ignored (cs : list Facade.lifecycle)
    (calls : list Facade.call) (a : arguments) (u : Facade.UnstopableEventLoop L) :
  Facade.perform_all (map Facade.lifecycle_call cs) u
  = (map (fun _ => Return Facade.NoneValue) cs, u)
  /\ Facade._loop (snd (Facade.perform_all calls u))
     = fold_left (fun l c => Facade.host_perform c l)
         (filter Facade.forwarded calls) (Facade._loop u)
  /\ Facade.run_in_executor a u
     = Return (Facade.Future (fst (loop_run_in_executor a (Facade._loop u))),
               Facade.mkFacade (snd (loop_run_in_executor a (Facade._loop u))))
  /\ Facade.call_from_executor a u
     = Return (Facade.NoneValue,
               Facade.mkFacade (loop_call_from_executor a (Facade._loop u))).
Proof.
  split; [apply perform_all_lifecycle|]. split; [apply perform_all_host|].
  split; [|reflexivity].
  unfold Facade.run_in_executor.
  now destruct (loop_run_in_executor a (Facade._loop u)).
Qed.

(** C7.  [add_reader] and [remove_reader] raise [NotImplementedError] for
    every descriptor and callback, and the wrapped loop is not touched. *)
Theorem reader_registration_is_unsupported (fd : nat) (callback : arguments)
    (u : Facade.UnstopableEventLoop L) :
  Facade.add_reader fd callback u = Raise NotImplementedError
  /\ Facade.remove_reader fd u = Raise NotImplementedError
  /\ Facade.perform_all [Facade.AddReader fd callback; Facade.RemoveReader fd] u
     = ([Raise NotImplementedError; Raise NotImplementedError], u).
Proof. repeat split. Qed.

End FacadeProperties.

(** On the sample host: stopping and closing it directly halts it, the
    same calls through the facade do not, and work given afterwards still
    reaches it. *)
Example host_keeps_running :
  let host := mkHost true false [] [] [] in
  running (loop_stop host) = false
  /\ closed (loop_close host) = true
  /\ Facade.perform_all
       [Facade.Stop; Facade.Close; Facade.Stop; Facade.RunInExecutor 7]
       (Facade.mkFacade host)
     = ([Return Facade.NoneValue; Return Facade.NoneValue; Return Facade.NoneValue;
         Return (Facade.Future 0)],
        Facade.mkFacade (mkHost true false [7] [] [])).
Proof. repeat split. Qed.

(** * Further properties *)

(** ** UTF-8: an ASCII byte separates characters *)

Lemma between_high (lo hi : N) (x : byte) :
  is_ascii x = true -> (128 <= lo)%N -> between lo hi x = false.
Proof.
  unfold is_ascii, between. intros H Hlo.
  apply andb_prop in H. destruct H as [_ H]. apply N.leb_le in H.
  apply andb_false_iff. left. apply N.leb_gt. lia.
Qed.

Lemma utf8_valid_eq (bs : list byte) :
  utf8_valid bs =
  match bs with
  | [] => true
  | b0 :: r0 =>
      if between 0 127 b0 then utf8_valid r0
      else
        match r0 with
        | [] => false
        | b1 :: r1 =>
            if between 194 223 b0 then continuation b1 && utf8_valid r1
            else
              match r1 with
              | [] => false
              | b2 :: r2 =>
                  if between 224 239 b0 then
                    (if between 224 224 b0 then between 160 191 b1
                     else if between 237 237 b0 then between 128 159 b1
                     else continuation b1)
                    && continuation b2 && utf8_valid r2
                  else
                    match r2 with
                    | [] => false
                    | b3 :: r3 =>
                        between 240 244 b0
                        && (if between 240 240 b0 then between 144 191 b1
                            else if between 244 244 b0 then between 128 143 b1
                            else continuation b1)
                        && continuation b2 && continuation b3 && utf8_valid r3
                    end
              end
        end
  end.
Proof. destruct bs; reflexivity. Qed.

Ltac high x Hx :=
  unfold continuation;
  repeat match goal with
         | |- context [between ?lo ?hi x] =>
             lazymatch lo with
             | 0%N => fail
             | _ => rewrite (between_high lo hi x Hx) by (vm_compute; discriminate)
             end
         end.

Ltac settle :=
  repeat match goal with
         | |- context [if ?c then _ else _] => destruct c
         end;
  rewrite ?andb_false_r, ?andb_true_r, ?andb_assoc; try reflexivity.

Lemma utf8_valid_ascii_split (x : byte) (b : list byte) :
  is_ascii x = true ->
  forall n a, List.length a <= n ->
  utf8_valid (a ++ x :: b) = utf8_valid a && utf8_valid b.
Proof.
  intros Hx.
  assert (Hnil : utf8_valid ([] ++ x :: b) = utf8_valid [] && utf8_valid b).
  { cbn [app]. rewrite utf8_valid_eq. unfold is_ascii in Hx. now rewrite Hx. }
  induction n as [|n IH]; intros a Hn.
  - destruct a; [exact Hnil | simpl in Hn; lia].
  - destruct a as [|b0 r0]; [exact Hnil|]. simpl in Hn.
    cbn [app].
    rewrite (utf8_valid_eq (b0 :: (r0 ++ x :: b))), (utf8_valid_eq (b0 :: r0)).
    destruct (between 0 127 b0); [apply IH; lia|].
    destruct r0 as [|b1 r1]; cbn [app].
    { high x Hx. destruct b as [|b2 [|b3 r3]]; settle. }
    simpl in Hn.
    destruct (between 194 223 b0).
    { rewrite (IH r1) by lia. now rewrite andb_assoc. }
    destruct r1 as [|b2 r2]; cbn [app].
    { high x Hx. destruct b as [|b3 r3]; settle. }
    simpl in Hn.
    destruct (between 224 239 b0).
    { rewrite (IH r2) by lia. now rewrite !andb_assoc. }
    destruct r2 as [|b3 r3]; cbn [app].
    { high x Hx. settle. }
    simpl in Hn.
    rewrite (IH r3) by lia. now rewrite !andb_assoc.
Qed.

Lemma utf8_valid_app (a b : list byte) :
  utf8_valid a = true -> utf8_valid (a ++ b) = utf8_valid b.
Proof.
  remember (List.length a) as n eqn:Hn.
  assert (Hle : List.length a <= n) by lia. clear Hn.
  revert a Hle. induction n as [|n IH]; intros a Hle Ha.
  - destruct a; [reflexivity | simpl in Hle; lia].
  - destruct a as [|b0 r0]; [reflexivity|]. simpl in Hle.
    cbn [app]. rewrite (utf8_valid_eq (b0 :: r0)) in Ha.
    rewrite (utf8_valid_eq (b0 :: (r0 ++ b))).
    destruct (between 0 127 b0); [apply IH; [lia | exact Ha]|].
    destruct r0 as [|b1 r1]; [discriminate|]. cbn [app]. simpl in Hle.
    destruct (between 194 223 b0).
    { apply andb_prop in Ha. destruct Ha as [-> Ha]. apply IH; [lia | exact Ha]. }
    destruct r1 as [|b2 r2]; [discriminate|]. cbn [app]. simpl in Hle.
    destruct (between 224 239 b0).
    { apply andb_prop in Ha. destruct Ha as [-> Ha]. apply IH; [lia | exact Ha]. }
    destruct r2 as [|b3 r3]; [discriminate|]. cbn [app]. simpl in Hle.
    apply andb_prop in Ha. destruct Ha as [-> Ha]. apply IH; [lia | exact Ha].
Qed.

(** ** [get_commands] and [help name] *)

(** X1.  [get_commands] returns a pair [(name, doc)] exactly when the
    shell has a coroutine of that name, the name does not start with an
    underscore and is not [run], and [doc] is its documentation. *)
Theorem get_commands_exactly_commands (ns : namespace) (name : string)
    (doc : option string) :
  In (name, doc) (get_commands ns) <->
  exists m, In (name, m) ns
            /\ isgeneratorfunction m = true
            /\ startswith "_" name = false
            /\ name <> "run"
            /\ doc = getdoc m.
Proof.
  rewrite get_commands_listing, in_map_iff. split.
  - intros [[n m] [E Hin]]. unfold entry in E. simpl in E.
    inversion E; subst. apply filter_In in Hin. destruct Hin as [Hin Hc].
    apply (proj1 (getmembers_In ns (name, m))) in Hin.
    unfold is_command in Hc. simpl in Hc.
    apply andb_prop in Hc. destruct Hc as [Hc Hr].
    apply andb_prop in Hc. destruct Hc as [Hg Hu].
    apply negb_true_iff in Hu, Hr. apply String.eqb_neq in Hr.
    exists m. tauto.
  - intros [m (Hin & Hg & Hu & Hr & ->)].
    exists (name, m). split; [reflexivity|].
    apply filter_In. split; [exact (proj2 (getmembers_In ns (name, m)) Hin)|].
    unfold is_command. simpl. rewrite Hg, Hu. apply String.eqb_neq in Hr.
    now rewrite Hr.
Qed.

Lemma help_loop_unmatched (a : string) (rest : list string) (l : namespace)
    (res : string) :
  (forall nv, In nv l -> fst nv <> a) ->
  fold_left (help_body (a :: rest)) l res = res.
Proof.
  revert res. induction l as [|nv l IH]; intros res H; simpl; [reflexivity|].
  rewrite help_body_unmatched.
  - apply IH. intros x Hx. apply H. now right.
  - intros _. apply H. now left.
Qed.

Lemma help_body_matched (a : string) (rest : list string) (res : string) (m : member) :
  is_command (a, m) = true ->
  help_body (a :: rest) res (a, m) = res ++ full_line (a, getdoc m).
Proof.
  unfold is_command, help_body, help_skips, full_line. simpl.
  intros H. apply andb_prop in H. destruct H as [H Hr].
  apply andb_prop in H. destruct H as [Hg Hu].
  apply negb_true_iff in Hu, Hr. unfold startswith in *.
  rewrite Hg, Hu, Hr, String.eqb_refl. simpl.
  destruct (getdoc m) as [[|c d]|]; simpl; now rewrite ?append_assoc.
Qed.

Lemma help_loop_matched (a : string) (rest : list string) (m : member)
    (l : namespace) (res : string) :
  NoDup (map fst l) -> In (a, m) l -> is_command (a, m) = true ->
  fold_left (help_body (a :: rest)) l res = res ++ full_line (a, getdoc m).
Proof.
  revert res. induction l as [|[n v] l IH]; intros res Hnd Hin Hc; [contradiction|].
  simpl in Hnd. inversion Hnd as [|? ? Hn Hl]; subst.
  cbn [fold_left]. destruct Hin as [E|Hin].
  - inversion E; subst. rewrite help_body_matched by exact Hc.
    apply help_loop_unmatched. intros nv Hnv Ea. apply Hn.
    apply in_map_iff. now exists nv.
  - rewrite help_body_unmatched.
    + now apply IH.
    + intros _ Ea. simpl in Ea. subst n. apply Hn.
      apply in_map_iff. now exists (a, m).
Qed.

(** X2.  [help] with the name of a command as its first argument returns
    one line, the name followed by the whole documentation (the bare name
    if there is none); arguments after the first are not looked at, and
    neither header nor trailer is added. *)
Theorem help_shows_full_doc (ns : namespace) (a : string) (rest : list string)
    (m : member) :
  NoDup (map fst ns) ->
  In (a, m) ns ->
  is_command (a, m) = true ->
  help ns (a :: rest) = full_line (a, getdoc m).
Proof.
  intros Hnd Hin Hc. unfold help. simpl.
  rewrite (help_loop_matched a rest m).
  - reflexivity.
  - eapply Permutation_NoDup; [|exact Hnd].
    apply Permutation_map, Permutation_sym, getmembers_perm.
  - exact (proj2 (getmembers_In ns (a, m)) Hin).
  - exact Hc.
Qed.

Lemma help_shows_full_doc_witness :
  help Demo_object ["hello"; "again"] = "hello: " ++ hello_doc ++ nl.
Proof.
  apply (help_shows_full_doc Demo_object "hello" ["again"]
           (Coroutine (Some hello_doc) hello)).
  - exact Demo_object_NoDup.
  - vm_compute. tauto.
  - reflexivity.
Defined.

(** ** More on the dispatcher *)

Lemma self_help_ext (f g : string -> awaited string) (ns : namespace) :
  self_help f ns = self_help g ns.
Proof.
  unfold self_help. destruct (getattr ns "help") as [meth|]; [|reflexivity].
  apply invoke_ext. intros t [].
Qed.

(** Two lines with the same command, once the alias is resolved, and the
    same arguments are dispatched alike. *)
Lemma parse_command_same_tokens (ns : namespace) (t1 t2 c1 c2 : string)
    (rest : list string) :
  split " " t1 = c1 :: rest ->
  split " " t2 = c2 :: rest ->
  (if c1 =? "?" then "help" else c1) = (if c2 =? "?" then "help" else c2) ->
  _parse_command ns t1 = _parse_command ns t2.
Proof.
  intros H1 H2 E. unfold _parse_command.
  rewrite !parse_command_nested_unfold. unfold parse_command_body.
  rewrite H1, H2, E.
  destruct (find _ (getmembers ns)) as [[n meth]|].
  - apply invoke_ext. intros t Ht.
    assert (L1 : String.length t < String.length t1).
    { apply (split_tokens_shorter " " t1 t). now rewrite H1. }
    assert (L2 : String.length t < String.length t2).
    { apply (split_tokens_shorter " " t2 t). now rewrite H2. }
    destruct (String.length t1) as [|d1]; [lia|].
    destruct (String.length t2) as [|d2]; [lia|].
    apply parse_command_depth; lia.
  - now rewrite (self_help_ext _
                   (match String.length t2 with
                    | O => fun _ => Done (Raise RuntimeError)
                    | S d => parse_command_nested d ns
                    end)).
Qed.

(** X3.  The question mark is an alias of [help]: alone or followed by
    arguments, it is dispatched exactly as [help] is, on every shell. *)
Theorem question_mark_is_help (ns : namespace) (s : string) :
  _parse_command ns "?" = _parse_command ns "help"
  /\ _parse_command ns ("? " ++ s) = _parse_command ns ("help " ++ s).
Proof.
  split.
  - now apply (parse_command_same_tokens ns "?" "help" "?" "help" []).
  - apply (parse_command_same_tokens ns ("? " ++ s) ("help " ++ s)
             "?" "help" (split " " s)); reflexivity.
Qed.

(** X4.  When the first token of a line is not the alias and names no
    attribute of the shell, the answer is ["Command not found "], the
    token, and the listing [help] gives without arguments; the other
    tokens play no part. *)
Theorem unknown_command_answer (ns : namespace) (text : string) :
  hd "" (split " " text) <> "?" ->
  getattr ns (hd "" (split " " text)) = None ->
  getattr ns "help" = Some Help ->
  _parse_command ns text
  = Return ("Command not found " ++ hd "" (split " " text) ++ help ns []).
Proof.
  intros Hq Hc Hh.
  destruct (split " " text) as [|c0 rest] eqn:E;
    [now destruct (split_not_nil " " text)|].
  simpl in *. now apply (parse_command_unknown ns text c0 rest).
Qed.

Lemma unknown_command_answer_witness :
  _parse_command Demo_object "bogus  x y"
  = Return ("Command not found bogus" ++ help Demo_object []).
Proof.
  apply (unknown_command_answer Demo_object "bogus  x y").
  - vm_compute. discriminate.
  - reflexivity.
  - reflexivity.
Defined.

(** X5.  When the first token names a coroutine defined by a subclass,
    the outcome of the dispatch is the outcome of that coroutine on the
    remaining tokens, whatever it is: its text, or the exception it
    raises, which the dispatcher does not catch. *)
Theorem command_receives_remaining_tokens (ns : namespace) (text : string)
    (doc : option string) (body : list string -> awaited string) :
  NoDup (map fst ns) ->
  hd "" (split " " text) <> "?" ->
  getattr ns (hd "" (split " " text)) = Some (Coroutine doc body) ->
  _parse_command ns text = body (tl (split " " text)).
Proof.
  intros Hnd Hq Hc.
  destruct (split " " text) as [|c0 rest] eqn:E;
    [now destruct (split_not_nil " " text)|].
  simpl in *. now apply (parse_command_coroutine ns text c0 rest doc body).
Qed.

Lemma command_receives_remaining_tokens_witness :
  _parse_command Demo_object "hello a  b" = hello ["a"; ""; "b"].
Proof.
  apply (command_receives_remaining_tokens Demo_object "hello a  b"
           (Some hello_doc) hello).
  - exact Demo_object_NoDup.
  - vm_compute. discriminate.
  - reflexivity.
Defined.

Lemma join_split (sep : ascii) (s : string) :
  join (String sep "") (split sep s) = s.
Proof.
  unfold join. induction s as [|c s IH]; [reflexivity|].
  simpl split. pose proof (split_not_nil sep s) as Hne.
  destruct (Ascii.eqb_spec c sep) as [->|Hc].
  - destruct (split sep s) as [|h t]; [contradiction|].
    change (String.concat (String sep "") ("" :: h :: t))
      with ("" ++ String sep "" ++ String.concat (String sep "") (h :: t)).
    now rewrite IH.
  - destruct (split sep s) as [|h t]; [contradiction|].
    rewrite <- IH. destruct t; reflexivity.
Qed.

(** X6.  On the demo shell, [hello] followed by a space echoes the rest
    of the line as it was typed, repeated spaces included, and nothing
    else. *)
Theorem hello_echoes_rest_of_line (s : string) :
  _parse_command Demo_object ("hello " ++ s) = Return s.
Proof.
  assert (E : split " " ("hello " ++ s) = "hello" :: split " " s) by reflexivity.
  rewrite (parse_command_coroutine Demo_object ("hello " ++ s) "hello"
             (split " " s) (Some hello_doc) hello Demo_object_NoDup E
             ltac:(discriminate) eq_refl).
  unfold hello. pose proof (split_not_nil " " s) as Hne.
  destruct (split " " s) as [|h t] eqn:Es; [contradiction|].
  simpl negb. cbn [List.length Nat.eqb negb]. rewrite <- Es.
  now rewrite (join_split " " s).
Qed.

(** ** Lines through [readline], [decode] and [strip] *)

Lemma encode_app (a b : string) : encode (a ++ b) = (encode a ++ encode b)%list.
Proof.
  induction a as [|c a IH]; [reflexivity|].
  change (encode (String c a ++ b)) with (byte_of_ascii c :: encode (a ++ b)).
  now rewrite IH.
Qed.

Lemma decode_encode_text (bs : list byte) :
  utf8_valid bs = true -> decode bs = Return (string_of_list_byte bs).
Proof. intros H. unfold decode. now rewrite H. Qed.

Lemma find_newline_app (a rest : list byte) :
  find_newline a = None ->
  find_newline (a ++ x0a :: rest) = Some (List.length a).
Proof.
  induction a as [|b a IH]; simpl; [reflexivity|].
  destruct (Byte.eqb b x0a); [discriminate|].
  destruct (find_newline a); [discriminate|]. intros _. now rewrite IH.
Qed.

Lemma find_newline_none_app (a b : list byte) :
  find_newline a = None -> find_newline b = None -> find_newline (a ++ b) = None.
Proof.
  induction a as [|x a IH]; simpl; [now intros _|].
  destruct (Byte.eqb x x0a); [discriminate|].
  destruct (find_newline a); [discriminate|]. intros _ Hb. now rewrite IH.
Qed.

Lemma firstn_line (a : list byte) (x : byte) (rest : list byte) :
  firstn (S (List.length a)) (a ++ x :: rest) = (a ++ [x])%list
  /\ skipn (S (List.length a)) (a ++ x :: rest) = rest.
Proof.
  induction a as [|b a [IH1 IH2]]; [now split|].
  split.
  - change (firstn (S (List.length (b :: a))) ((b :: a) ++ x :: rest))
      with (b :: firstn (S (List.length a)) (a ++ x :: rest)).
    now rewrite IH1.
  - exact IH2.
Qed.

Lemma find_newline_encode_cons (c : ascii) (l : string) :
  find_newline (encode (String c l)) =
  if Ascii.eqb c LF then Some 0 else option_map S (find_newline (encode l)).
Proof.
  change (encode (String c l)) with (byte_of_ascii c :: encode l).
  simpl. now rewrite byte_eqb_newline, ascii_of_byte_of_ascii.
Qed.

Lemma rstrip_line (l : string) :
  find_newline (encode l) = None -> rstrip LF (l ++ nl) = l.
Proof.
  induction l as [|c l IH]; [reflexivity|].
  rewrite find_newline_encode_cons.
  destruct (Ascii.eqb c LF) eqn:Ec; [discriminate|].
  destruct (find_newline (encode l)) eqn:El; [discriminate|]. intros _.
  change (rstrip LF (String c l ++ nl))
    with (match rstrip LF (l ++ nl) with
          | EmptyString => if Ascii.eqb c LF then EmptyString else String c EmptyString
          | r => String c r
          end).
  rewrite IH by reflexivity. rewrite Ec. now destruct l.
Qed.

Lemma strip_line (l : string) :
  find_newline (encode l) = None -> strip LF (l ++ nl) = l.
Proof.
  intros H. unfold strip.
  destruct l as [|c l]; [reflexivity|].
  rewrite find_newline_encode_cons in H.
  change (lstrip LF (String c l ++ nl))
    with (if Ascii.eqb c LF then lstrip LF (l ++ nl) else String c l ++ nl).
  destruct (Ascii.eqb c LF) eqn:Ec; [discriminate|].
  apply rstrip_line. rewrite find_newline_encode_cons. now rewrite Ec.
Qed.

Lemma well_formed_line_inv (l : string) :
  well_formed_line l = true ->
  find_newline (encode l) = None
  /\ utf8_valid (encode l) = true
  /\ N.ltb _limit (N.of_nat (List.length (encode l))) = false.
Proof.
  unfold well_formed_line. intros H.
  apply andb_prop in H. destruct H as [H Hl].
  apply andb_prop in H. destruct H as [Hn Hv].
  split; [now destruct (find_newline (encode l))|]. split; [exact Hv|].
  apply N.ltb_ge. now apply N.leb_le.
Qed.

Lemma readline_line (l : string) (rest : list byte) (e : bool) :
  well_formed_line l = true ->
  readline (mkStream (encode l ++ x0a :: rest) e)
  = Return ((encode l ++ [x0a])%list, mkStream rest e).
Proof.
  intros H. apply well_formed_line_inv in H. destruct H as (Hn & _ & Hl).
  unfold readline. cbn [_buffer _eof].
  rewrite (find_newline_app _ rest Hn), Hl.
  destruct (firstn_line (encode l) x0a rest) as [-> ->]. reflexivity.
Qed.

Lemma decode_line (l : string) :
  utf8_valid (encode l) = true ->
  decode (encode l ++ [x0a]) = Return (l ++ nl).
Proof.
  intros Hv. rewrite decode_encode_text.
  - change [x0a] with (encode nl). rewrite <- encode_app.
    unfold encode. now rewrite string_of_list_byte_of_string.
  - rewrite (utf8_valid_ascii_split x0a [] eq_refl (List.length (encode l)))
      by apply Nat.le_refl.
    now rewrite Hv.
Qed.

(** The part of a turn that follows the prompt, for a reader that holds
    a complete line. *)
Lemma resume_line (sh : EmbedShell) (l : string) (rest : list byte) (e : bool) :
  well_formed_line l = true ->
  _reader sh = mkStream (encode l ++ x0a :: rest) e ->
  resume sh =
  let sh1 := set_reader sh (mkStream rest e) in
  match _parse_command (members sh) l with
  | Done (Return res) =>
      match feed_data (encode res) (_writer sh) with
      | Return w => Iterating (set_writer sh1 w)
      | Raise x => Raised x
      end
  | Done (Raise x) => Raised x
  | Pending => AwaitingCommand sh1
  end.
Proof.
  intros Hwf Hr. unfold resume. rewrite Hr, (readline_line l rest e Hwf).
  unfold await at 1, call at 1. cbn [fst snd].
  destruct (well_formed_line_inv l Hwf) as (Hn & Hv & _).
  rewrite (decode_line l Hv). unfold call at 1.
  rewrite (strip_line l Hn).
  cbn [set_reader set_writer members _writer _reader _prompt _welcome_message].
  destruct (_parse_command (members sh) l) as [[res|x]|]; reflexivity.
Qed.

Lemma run_iteration_resume (sh : EmbedShell) :
  run_iteration sh
  = call (feed_data (encode (_prompt sh)) (_writer sh))
      (fun w => resume (set_writer sh w)).
Proof. reflexivity. Qed.

Lemma run_iteration_dispatches_lemma (sh : EmbedShell) (l : string)
    (rest : list byte) (e : bool) :
  well_formed_line l = true ->
  _reader sh = mkStream (encode l ++ x0a :: rest) e ->
  accepts (_writer sh) (encode (_prompt sh)) = true ->
  run_iteration sh =
  let sh1 := mkShell (members sh) (mkStream rest e)
               (fed (_writer sh) (encode (_prompt sh)))
               (_prompt sh) (_welcome_message sh) in
  match _parse_command (members sh) l with
  | Done (Return res) =>
      match feed_data (encode res) (_writer sh1) with
      | Return w => Iterating (set_writer sh1 w)
      | Raise x => Raised x
      end
  | Done (Raise x) => Raised x
  | Pending => AwaitingCommand sh1
  end.
Proof.
  intros Hwf Hr Hp. rewrite run_iteration_resume.
  rewrite (feed_data_accepts _ _ Hp). unfold call.
  rewrite (resume_line (set_writer sh (fed (_writer sh) (encode (_prompt sh))))
             l rest e Hwf Hr).
  reflexivity.
Qed.



(** ** A whole session *)

Lemma crlf_app (a b : list byte) : crlf (a ++ b) = (crlf a ++ crlf b)%list.
Proof. unfold crlf. apply flat_map_app. Qed.

Lemma transmit_app (w : output) (a b : list byte) :
  transmit w (a ++ b) = (transmit w a ++ transmit w b)%list.
Proof. destruct w; [reflexivity | apply crlf_app]. Qed.

Lemma stream_of_fed (w : output) (d : list byte) :
  stream_of (fed w d) = extend (stream_of w) (transmit w d).
Proof. destruct w; reflexivity. Qed.

Lemma transmit_fed (w : output) (d d' : list byte) :
  transmit (fed w d) d' = transmit w d'.
Proof. destruct w; reflexivity. Qed.

Lemma transcript_cons (p a : string) (rest : list string) :
  transcript p (a :: rest) = p ++ a ++ transcript p rest.
Proof. unfold transcript. simpl. now rewrite !append_assoc. Qed.

Lemma served_buffer (w : output) (p : string) (answers : list string) :
  _buffer (stream_of (served w p answers))
  = (_buffer (stream_of w) ++ transmit w (encode (transcript p answers)))%list.
Proof.
  revert w. induction answers as [|a rest IH]; intros w.
  - simpl served. rewrite stream_of_fed. unfold transcript. simpl.
    now rewrite append_empty_r.
  - simpl served. rewrite IH, !stream_of_fed, !transmit_fed. cbn [extend _buffer].
    rewrite transcript_cons, !encode_app, !transmit_app.
    now rewrite <- !app_assoc.
Qed.

Lemma typed_cons (l : string) (ls : list string) (tail : list byte) :
  (typed (l :: ls) ++ tail)%list = (encode l ++ x0a :: (typed ls ++ tail))%list.
Proof.
  unfold typed. simpl. rewrite encode_app.
  change (encode nl) with [x0a]. now rewrite <- !app_assoc.
Qed.

Lemma run_iteration_waits (sh : EmbedShell) (tail : list byte) :
  _reader sh = mkStream tail false ->
  find_newline tail = None ->
  N.ltb _limit (N.of_nat (List.length tail)) = false ->
  accepts (_writer sh) (encode (_prompt sh)) = true ->
  run_iteration sh
  = AwaitingLine (set_writer sh (fed (_writer sh) (encode (_prompt sh)))).
Proof.
  intros Hr Hn Hl Hp. rewrite run_iteration_resume.
  rewrite (feed_data_accepts _ _ Hp). unfold call, resume.
  cbn [set_writer _reader]. rewrite Hr. unfold readline. cbn [_buffer _eof].
  now rewrite Hn, Hl.
Qed.

Lemma run_loop_transcript (lines answers : list string) (tail : list byte) :
  find_newline tail = None ->
  N.ltb _limit (N.of_nat (List.length tail)) = false ->
  forall (sh : EmbedShell) (n : nat),
  _reader sh = mkStream (typed lines ++ tail) false ->
  forallb well_formed_line lines = true ->
  Forall2 (fun l a => _parse_command (members sh) l = Return a) lines answers ->
  accepts (_writer sh) (encode (_prompt sh)) = true ->
  Forall (fun a => accepts (_writer sh) (encode a) = true) answers ->
  List.length lines < n ->
  run_loop n sh
  = AwaitingLine
      (mkShell (members sh) (mkStream tail false)
         (served (_writer sh) (_prompt sh) answers)
         (_prompt sh) (_welcome_message sh)).
Proof.
  intros Hn Hl. revert answers.
  induction lines as [|l ls IH]; intros answers sh n Hr Hwf Hans Hp Hacc Hlen.
  - inversion Hans; subst. destruct n as [|n]; [simpl in Hlen; lia|].
    cbn [run_loop]. cbn [typed flat_map app] in Hr.
    rewrite (run_iteration_waits sh tail Hr Hn Hl Hp).
    unfold set_writer. now rewrite Hr.
  - inversion Hans as [|? a ? answers' Ha Hans']; subst.
    inversion Hacc as [|? ? Hacc1 Hacc']; subst.
    cbn [forallb] in Hwf. apply andb_prop in Hwf. destruct Hwf as [Hwl Hwf].
    destruct n as [|n]; [simpl in Hlen; lia|]. simpl in Hlen.
    rewrite typed_cons in Hr. cbn [run_loop].
    rewrite (run_iteration_dispatches_lemma sh l (typed ls ++ tail) false Hwl Hr Hp).
    cbn zeta. rewrite Ha. cbn [_writer].
    rewrite feed_data_accepts by (now rewrite accepts_fed).
    rewrite (IH answers'); cbn [set_writer members _reader _writer _prompt _welcome_message].
    + reflexivity.
    + reflexivity.
    + exact Hwf.
    + exact Hans'.
    + now rewrite !accepts_fed.
    + eapply Forall_impl; [|exact Hacc']. intros x Hx. now rewrite !accepts_fed.
    + lia.
Qed.

Lemma greeted_buffer (sh : EmbedShell) :
  _buffer (stream_of (_writer (greeted sh)))
  = (_buffer (stream_of (_writer sh))
     ++ transmit (_writer sh) (encode (welcome_text sh)))%list
  /\ forall d, transmit (_writer (greeted sh)) d = transmit (_writer sh) d.
Proof.
  unfold greeted, welcome_text.
  destruct (_welcome_message sh) as [[|c m]|]; cbn [truthy].
  - split; [|reflexivity]. destruct (_writer sh); simpl; now rewrite app_nil_r.
  - cbn [set_writer _writer]. rewrite stream_of_fed. split; [reflexivity|].
    intros d. apply transmit_fed.
  - split; [|reflexivity]. destruct (_writer sh); simpl; now rewrite app_nil_r.
Qed.

(** X8.  A session in which the lines are already in the reader, each
    ended by a line feed, followed by the beginning of a line not yet
    completed: when every line is answered, [run] writes the welcome
    message once, then the prompt, then answer and prompt for each line in
    turn, and is left waiting in [readline]; the unfinished input is still
    in the reader, untouched.  On the stdin path these bytes are written
    as they are, on the telnet path with a carriage return before every
    line feed. *)
Theorem run_serves_lines (sh : EmbedShell) (lines answers : list string)
    (tail : list byte) (n : nat) :
  _reader sh = mkStream (typed lines ++ tail) false ->
  forallb well_formed_line lines = true ->
  find_newline tail = None ->
  N.ltb _limit (N.of_nat (List.length tail)) = false ->
  Forall2 (fun l a => _parse_command (members sh) l = Return a) lines answers ->
  accepts (_writer sh) (encode (welcome_text sh)) = true ->
  accepts (_writer sh) (encode (_prompt sh)) = true ->
  Forall (fun a => accepts (_writer sh) (encode a) = true) answers ->
  List.length lines < n ->
  exists sh',
    run n sh = AwaitingLine sh'
    /\ _reader sh' = mkStream tail false
    /\ _buffer (stream_of (_writer sh'))
       = (_buffer (stream_of (_writer sh))
          ++ transmit (_writer sh)
               (encode (welcome_text sh ++ transcript (_prompt sh) answers)))%list.
Proof.
  intros Hr Hwf Hn Hl Hans Hw Hp Hacc Hlen.
  destruct (greeted_invariant sh) as (Gr & Gm & Gp & _ & Gw).
  destruct (greeted_buffer sh) as [Gb Gt].
  rewrite (run_greeted n sh Hw).
  rewrite (run_loop_transcript lines answers tail Hn Hl (greeted sh) n).
  - eexists. split; [reflexivity|]. split; [reflexivity|].
    cbn [_writer]. rewrite served_buffer, Gb, Gt, Gp.
    now rewrite encode_app, transmit_app, <- app_assoc.
  - now rewrite Gr.
  - exact Hwf.
  - now rewrite Gm.
  - now rewrite Gw, Gp.
  - eapply Forall_impl; [|exact Hacc]. intros a Ha. now rewrite Gw.
  - exact Hlen.
Qed.

Lemma run_serves_lines_witness :
  exists sh',
    run 3 (mkShell Demo_object
             (mkStream (encode ("hello" ++ nl ++ "help bogus" ++ nl ++ "hel")) false)
             (StreamWriter (mkStream [] false)) "> " (Some ("Welcome" ++ nl)))
    = AwaitingLine sh'
    /\ _reader sh' = mkStream (encode "hel") false
    /\ _buffer (stream_of (_writer sh'))
       = encode ("Welcome" ++ crnl ++ "> world" ++ crnl ++ "> > ").
Proof.
  apply (run_serves_lines
           (mkShell Demo_object
              (mkStream (encode ("hello" ++ nl ++ "help bogus" ++ nl ++ "hel")) false)
              (StreamWriter (mkStream [] false)) "> " (Some ("Welcome" ++ nl)))
           ["hello"; "help bogus"] ["world" ++ nl; ""] (encode "hel") 3);
    try reflexivity.
  - repeat constructor.
  - repeat constructor.
  - cbn [List.length]. lia.
Defined.



(** ** More on the output adapter *)

(** X10.  What [feed_data] does with any data on either kind of writer:
    the data are taken whole, or an exception is raised and nothing is
    written.  A [StreamWriter] raises [UnicodeDecodeError] for bytes that
    do not decode, whether or not it is still open; a writer that has been
    fed end-of-stream raises [AssertionError]. *)
Theorem feed_data_outcome (data : list byte) (w : output) :
  feed_data data w =
  if accepts w data then Return (fed w data)
  else Raise (match w with
              | StreamWriter _ =>
                  if utf8_valid data then AssertionError else UnicodeDecodeError
              | PlainStream _ => AssertionError
              end).
Proof.
  destruct (accepts w data) eqn:Ha; [now apply feed_data_accepts|].
  unfold accepts in Ha. destruct w as [r|r]; cbn [stream_of] in Ha; simpl.
  - rewrite andb_true_r in Ha. apply negb_false_iff in Ha.
    unfold StreamReader_feed_data. now rewrite Ha.
  - unfold StreamWriter_feed_data, decode.
    destruct (utf8_valid data); unfold bind; [|reflexivity].
    rewrite andb_true_r in Ha. apply negb_false_iff in Ha.
    unfold StreamReader_feed_data. now rewrite Ha.
Qed.

Lemma crlf_no_bare_newline (data pre post : list byte) :
  crlf data = (pre ++ x0a :: post)%list -> exists pre', pre = (pre' ++ [x0d])%list.
Proof.
  revert pre. induction data as [|b data IH]; intros pre H.
  - destruct pre; discriminate.
  - simpl in H. destruct (Byte.eqb b x0a) eqn:Eb.
    + destruct pre as [|p0 [|p1 pre2]]; simpl in H.
      * discriminate.
      * inversion H; subst. now exists [].
      * inversion H as [[E0 E1 E2]]. subst.
        destruct (IH pre2 E2) as [pre' ->]. now exists (x0d :: x0a :: pre').
    + destruct pre as [|p0 pre1]; simpl in H.
      * inversion H; subst. discriminate.
      * inversion H as [[E0 E1]]. subst.
        destruct (IH pre1 E1) as [pre' ->]. now exists (p0 :: pre').
Qed.

(** X11.  A [StreamWriter] never passes on a bare line feed: in what a
    successful [feed_data] adds to the buffer, every line feed comes
    straight after a carriage return. *)
Theorem telnet_output_has_no_bare_newline (data : list byte) (w w' : StreamReader) :
  StreamWriter_feed_data data w = Return w' ->
  exists added,
    _buffer w' = (_buffer w ++ added)%list
    /\ forall pre post, added = (pre ++ x0a :: post)%list ->
                        exists pre', pre = (pre' ++ [x0d])%list.
Proof.
  intros H. apply StreamWriter_feed_data_Return in H.
  destruct H as (_ & _ & ->). exists (crlf data). split; [reflexivity|].
  intros pre post. apply crlf_no_bare_newline.
Qed.

Lemma telnet_output_has_no_bare_newline_witness :
  exists added,
    _buffer (mkStream (encode (crnl ++ "a" ++ crnl)) false)
    = (_buffer (mkStream [] false) ++ added)%list
    /\ forall pre post, added = (pre ++ x0a :: post)%list ->
                        exists pre', pre = (pre' ++ [x0d])%list.
Proof.
  apply (telnet_output_has_no_bare_newline
           (encode (nl ++ "a" ++ nl)) (mkStream [] false)).
  reflexivity.
Defined.

(** X12.  Writing two pieces of decodable data to a [StreamWriter] one
    after the other has the same outcome as writing them at once. *)
Theorem telnet_output_in_pieces (a b : list byte) (w : StreamReader) :
  utf8_valid a = true ->
  utf8_valid b = true ->
  (r <- StreamWriter_feed_data a w ;; StreamWriter_feed_data b r)
  = StreamWriter_feed_data (a ++ b) w.
Proof.
  intros Ha Hb.
  assert (Hab : utf8_valid (a ++ b) = true) by (now rewrite utf8_valid_app).
  destruct (_eof w) eqn:He.
  - unfold StreamWriter_feed_data, decode. rewrite Ha, Hab. unfold bind.
    unfold StreamReader_feed_data. now rewrite He.
  - rewrite (StreamWriter_feed_data_open a w Ha He). unfold bind.
    rewrite (StreamWriter_feed_data_open b _ Hb) by exact He.
    rewrite (StreamWriter_feed_data_open (a ++ b) w Hab He).
    unfold extend. cbn [_buffer _eof]. now rewrite crlf_app, app_assoc.
Qed.

Lemma telnet_output_in_pieces_witness :
  (r <- StreamWriter_feed_data (encode ("> " ++ nl)) (mkStream [] false) ;;
   StreamWriter_feed_data [xc3; xa9; x0a] r)
  = StreamWriter_feed_data (encode ("> " ++ nl) ++ [xc3; xa9; x0a]) (mkStream [] false).
Proof.
  apply (telnet_output_in_pieces (encode ("> " ++ nl)) [xc3; xa9; x0a]
           (mkStream [] false)); reflexivity.
Defined.

Lemma crlf_head (x : byte) (l : list byte) :
  crlf (x :: l) = ((if Byte.eqb x x0a then [x0d; x0a] else [x]) ++ crlf l)%list.
Proof. reflexivity. Qed.

Lemma crlf_injective (a b : list byte) : crlf a = crlf b -> a = b.
Proof.
  revert b. induction a as [|x a IH]; intros [|y b] H.
  - reflexivity.
  - rewrite crlf_head in H. destruct (Byte.eqb y x0a); discriminate.
  - rewrite crlf_head in H. destruct (Byte.eqb x x0a); discriminate.
  - rewrite !crlf_head in H.
    destruct (Byte.eqb x x0a) eqn:Ex, (Byte.eqb y x0a) eqn:Ey.
    + apply Byte.byte_dec_bl in Ex, Ey. subst.
      inversion H as [E]. now rewrite (IH b E).
    + exfalso. inversion H as [[E0 E1]]. subst y.
      destruct b as [|z b]; [discriminate|].
      rewrite crlf_head in E1.
      destruct (Byte.eqb z x0a) eqn:Ez; inversion E1; subst; discriminate.
    + exfalso. inversion H as [[E0 E1]]. subst x.
      destruct a as [|z a]; [discriminate|].
      rewrite crlf_head in E1.
      destruct (Byte.eqb z x0a) eqn:Ez; inversion E1; subst; discriminate.
    + inversion H as [[E0 E1]]. subst. now rewrite (IH b E1).
Qed.

(** X13.  The rewriting loses nothing: if writing [a] and writing [b] to
    the same [StreamWriter] leave it in the same state, then [a] and [b]
    are the same bytes. *)
Theorem telnet_output_determines_input (a b : list byte) (w w' : StreamReader) :
  StreamWriter_feed_data a w = Return w' ->
  StreamWriter_feed_data b w = Return w' ->
  a = b.
Proof.
  intros Ha Hb.
  apply StreamWriter_feed_data_Return in Ha, Hb.
  destruct Ha as (_ & _ & Ea). destruct Hb as (_ & _ & Eb).
  rewrite Ea in Eb. unfold extend in Eb. inversion Eb as [E].
  apply app_inv_head in E. now apply crlf_injective.
Qed.

Lemma telnet_output_determines_input_witness :
  encode ("a" ++ nl) = [x61; x0a].
Proof.
  apply (telnet_output_determines_input (encode ("a" ++ nl)) [x61; x0a]
           (mkStream [] false) (mkStream [x61; x0d; x0a] false));
    reflexivity.
Defined.

(** ** The stdin front end *)

Lemma utf8_valid_single (b : byte) : utf8_valid [b] = is_ascii b.
Proof. rewrite utf8_valid_eq. unfold is_ascii. now destruct (between 0 127 b). Qed.

Lemma read_stdout_iteration_cons (b : byte) (bs : list byte) (e : bool) (out : string) :
  read_stdout_iteration (mkConsole (mkStream (b :: bs) e) out) =
  if is_ascii b
  then Copying (mkConsole (mkStream bs e) (out ++ String (ascii_of_byte b) ""))
  else CopyRaised UnicodeDecodeError (mkConsole (mkStream bs e) out).
Proof.
  unfold read_stdout_iteration, read. cbn [copied_from stdout _buffer _eof firstn skipn].
  unfold decode. rewrite utf8_valid_single. now destruct (is_ascii b).
Qed.

(** X14.  [read_stdout] prints output made of ASCII bytes as it is, byte
    by byte, and then waits for more. *)
Theorem read_stdout_copies_ascii (bs : list byte) (out : string) (n : nat) :
  forallb is_ascii bs = true ->
  List.length bs < n ->
  read_stdout n (mkConsole (mkStream bs false) out)
  = AwaitingOutput (mkConsole (mkStream [] false) (out ++ string_of_list_byte bs)).
Proof.
  revert out n. induction bs as [|b bs IH]; intros out n Ha Hn.
  - destruct n as [|n]; [simpl in Hn; lia|].
    cbn. now rewrite append_empty_r.
  - destruct n as [|n]; [simpl in Hn; lia|]. simpl in Hn.
    cbn [forallb] in Ha. apply andb_prop in Ha. destruct Ha as [Hb Ha].
    cbn [read_stdout]. rewrite read_stdout_iteration_cons, Hb.
    rewrite IH by (assumption || lia).
    change (string_of_list_byte (b :: bs))
      with (String (ascii_of_byte b) (string_of_list_byte bs)).
    now rewrite append_assoc.
Qed.

Lemma read_stdout_copies_ascii_witness :
  read_stdout 9 (mkConsole (mkStream (encode ("> world" ++ nl)) false) "")
  = AwaitingOutput (mkConsole (mkStream [] false) ("> world" ++ nl)).
Proof.
  apply (read_stdout_copies_ascii (encode ("> world" ++ nl)) "" 9).
  - reflexivity.
  - cbn. lia.
Defined.

(** X15.  [read_stdout] decodes one byte at a time, so the first byte
    outside ASCII ends it with [UnicodeDecodeError]: what precedes that
    byte has been printed, the byte itself is consumed and lost. *)
Theorem read_stdout_fails_on_non_ascii (pre post : list byte) (b : byte)
    (e : bool) (out : string) (n : nat) :
  forallb is_ascii pre = true ->
  is_ascii b = false ->
  List.length pre < n ->
  read_stdout n (mkConsole (mkStream (pre ++ b :: post) e) out)
  = CopyRaised UnicodeDecodeError
      (mkConsole (mkStream post e) (out ++ string_of_list_byte pre)).
Proof.
  revert out n. induction pre as [|p pre IH]; intros out n Ha Hb Hn.
  - destruct n as [|n]; [simpl in Hn; lia|].
    cbn [app read_stdout]. rewrite read_stdout_iteration_cons, Hb.
    cbn. now rewrite append_empty_r.
  - destruct n as [|n]; [simpl in Hn; lia|]. simpl in Hn.
    cbn [forallb] in Ha. apply andb_prop in Ha. destruct Ha as [Hp Ha].
    change ((p :: pre) ++ b :: post)%list with (p :: (pre ++ b :: post))%list.
    cbn [read_stdout]. rewrite read_stdout_iteration_cons, Hp.
    rewrite IH by (assumption || lia).
    change (string_of_list_byte (p :: pre))
      with (String (ascii_of_byte p) (string_of_list_byte pre)).
    now rewrite append_assoc.
Qed.

Lemma read_stdout_fails_on_non_ascii_witness :
  read_stdout 3 (mkConsole (mkStream [x63; x61; xc3; xa9; x0a] false) "")
  = CopyRaised UnicodeDecodeError (mkConsole (mkStream [xa9; x0a] false) "ca").
Proof.
  apply (read_stdout_fails_on_non_ascii [x63; x61] [xa9; x0a] xc3 false "" 3).
  - reflexivity.
  - reflexivity.
  - cbn. lia.
Defined.



(** X17.  At end of stream with nothing left to copy, [read] gives the
    empty bytes and [read_stdout] goes round without printing anything:
    it does not stop either. *)
Theorem read_stdout_spins_at_end_of_stream (out : string) (n : nat) :
  read 1 exhausted = Return ([], exhausted)
  /\ read_stdout n (mkConsole exhausted out) = Copying (mkConsole exhausted out).
Proof.
  split; [reflexivity|].
  induction n as [|n IH]; [reflexivity|].
  cbn [read_stdout].
  assert (E : read_stdout_iteration (mkConsole exhausted out)
              = Copying (mkConsole exhausted out)).
  { unfold read_stdout_iteration. cbn. now rewrite append_empty_r. }
  now rewrite E.
Qed.

(** ** The two paths side by side *)

Lemma run_transcript_state (sh : EmbedShell) (lines answers : list string)
    (tail : list byte) (n : nat) :
  _reader sh = mkStream (typed lines ++ tail) false ->
  forallb well_formed_line lines = true ->
  find_newline tail = None ->
  N.ltb _limit (N.of_nat (List.length tail)) = false ->
  Forall2 (fun l a => _parse_command (members sh) l = Return a) lines answers ->
  accepts (_writer sh) (encode (welcome_text sh)) = true ->
  accepts (_writer sh) (encode (_prompt sh)) = true ->
  Forall (fun a => accepts (_writer sh) (encode a) = true) answers ->
  List.length lines < n ->
  run n sh
  = AwaitingLine
      (mkShell (members sh) (mkStream tail false)
         (served (_writer (greeted sh)) (_prompt sh) answers)
         (_prompt sh) (_welcome_message sh))
  /\ _buffer (stream_of (served (_writer (greeted sh)) (_prompt sh) answers))
     = (_buffer (stream_of (_writer sh))
        ++ transmit (_writer sh)
             (encode (welcome_text sh ++ transcript (_prompt sh) answers)))%list.
Proof.
  intros Hr Hwf Hn Hl Hans Hw Hp Hacc Hlen.
  destruct (greeted_invariant sh) as (Gr & Gm & Gp & _ & Gw).
  destruct (greeted_buffer sh) as [Gb Gt].
  split.
  - rewrite (run_greeted n sh Hw).
    rewrite (run_loop_transcript lines answers tail Hn Hl (greeted sh) n).
    + rewrite Gm, Gp. f_equal. f_equal.
      unfold greeted. now destruct (truthy (_welcome_message sh)).
    + now rewrite Gr.
    + exact Hwf.
    + now rewrite Gm.
    + now rewrite Gw, Gp.
    + eapply Forall_impl; [|exact Hacc]. intros a Ha. now rewrite Gw.
    + exact Hlen.
  - rewrite served_buffer, Gb, Gt.
    now rewrite encode_app, transmit_app, <- app_assoc.
Qed.

(** X18.  The same lines served on the two paths: the shell wired by
    [create_stdin_shell] writes the welcome message, the prompts and the
    answers as they are, and the shell wired by [create_telnet_shell]
    writes the same bytes with a carriage return before every line
    feed. *)
Theorem telnet_session_is_stdin_session_with_crlf (shell : EmbedShell)
    (lines answers : list string) (tail : list byte) (n : nat) :
  forallb well_formed_line lines = true ->
  find_newline tail = None ->
  N.ltb _limit (N.of_nat (List.length tail)) = false ->
  Forall2 (fun l a => _parse_command (members shell) l = Return a) lines answers ->
  utf8_valid (encode (welcome_text shell)) = true ->
  utf8_valid (encode (_prompt shell)) = true ->
  Forall (fun a => utf8_valid (encode a) = true) answers ->
  List.length lines < n ->
  exists a b,
    run n (set_reader (create_stdin_shell shell) (mkStream (typed lines ++ tail) false))
    = AwaitingLine a
    /\ run n (set_reader (create_telnet_shell shell) (mkStream (typed lines ++ tail) false))
       = AwaitingLine b
    /\ _buffer (stream_of (_writer a))
       = encode (welcome_text shell ++ transcript (_prompt shell) answers)
    /\ _buffer (stream_of (_writer b)) = crlf (_buffer (stream_of (_writer a))).
Proof.
  intros Hwf Hn Hl Hans Hw Hp Hacc Hlen.
  destruct (run_transcript_state
              (set_reader (create_stdin_shell shell) (mkStream (typed lines ++ tail) false))
              lines answers tail n) as [Ea Ba]; try assumption; try reflexivity;
    try (eapply Forall_impl; [|exact Hacc]; intros x Hx; reflexivity).
  destruct (run_transcript_state
              (set_reader (create_telnet_shell shell) (mkStream (typed lines ++ tail) false))
              lines answers tail n) as [Eb Bb]; try assumption; try reflexivity;
    try (eapply Forall_impl; [|exact Hacc]; intros x Hx; exact Hx).
  eexists. eexists.
  split; [exact Ea|]. split; [exact Eb|].
  cbn [_writer]. rewrite Ba, Bb. split; reflexivity.
Qed.

Lemma telnet_session_is_stdin_session_with_crlf_witness :
  exists a b,
    run 3 (set_reader (create_stdin_shell (Demo_stdin exhausted))
             (mkStream (typed ["hello"; "?"] ++ []) false))
    = AwaitingLine a
    /\ run 3 (set_reader (create_telnet_shell (Demo_stdin exhausted))
                (mkStream (typed ["hello"; "?"] ++ []) false))
       = AwaitingLine b
    /\ _buffer (stream_of (_writer a))
       = encode (welcome_text (Demo_stdin exhausted)
                 ++ transcript (_prompt (Demo_stdin exhausted))
                      ["world" ++ nl; help Demo_object []])
    /\ _buffer (stream_of (_writer b)) = crlf (_buffer (stream_of (_writer a))).
Proof.
  apply (telnet_session_is_stdin_session_with_crlf (Demo_stdin exhausted)
           ["hello"; "?"] ["world" ++ nl; help Demo_object []] [] 3);
    try reflexivity.
  - repeat constructor.
  - repeat constructor.
  - cbn [List.length]. lia.
Defined.

(** ** The line-editing bridge *)

(** X19.  When the editor reports a completed line after being fed what
    was written, [CLIInputStream.write] puts that line and a line feed in
    the reader and takes the editor through its four reset steps; if the
    reader was empty, the next [readline] of the shell gets exactly that
    line and leaves the reader empty. *)
Theorem completed_line_is_delivered {E : Type} `{LineEditor E}
    (data : list byte) (s : CLIInputStream E) :
  utf8_valid data = true ->
  is_returning (inputstream_feed (string_of_list_byte data) (_cli s)) = true ->
  cli_stream s = mkStream [] false ->
  well_formed_line
    (return_value_text (inputstream_feed (string_of_list_byte data) (_cli s))) = true ->
  exists s',
    CLIInputStream_write data s = Return s'
    /\ _cli s'
       = _redraw (request_absolute_cursor_position (buffer_reset (cli_reset
           (inputstream_feed (string_of_list_byte data) (_cli s)))))
    /\ readline (cli_stream s')
       = Return (encode (return_value_text
                           (inputstream_feed (string_of_list_byte data) (_cli s)) ++ nl),
                 mkStream [] false).
Proof.
  intros Hv Hret Hs Hwf.
  set (cli := inputstream_feed (string_of_list_byte data) (_cli s)) in *.
  exists (mkCLI (_redraw (request_absolute_cursor_position (buffer_reset (cli_reset cli))))
            (mkStream (encode (return_value_text cli) ++ [x0a]) false)).
  split; [|split].
  - unfold CLIInputStream_write, decode. rewrite Hv. unfold bind at 1.
    fold cli. rewrite Hret. unfold deliver.
    rewrite Hs, StreamReader_feed_data_open by reflexivity.
    unfold bind, extend. cbn [_buffer _eof app]. now rewrite encode_app.
  - reflexivity.
  - cbn [cli_stream]. rewrite (readline_line _ [] false Hwf).
    now rewrite encode_app.
Qed.

Lemma completed_line_is_delivered_witness :
  exists s',
    CLIInputStream_write (encode ("lo" ++ String CR ""))
      (mkCLI (mkEditor "hel" false) (mkStream [] false)) = Return s'
    /\ _cli s' = mkEditor "" false
    /\ readline (cli_stream s') = Return (encode ("hello" ++ nl), mkStream [] false).
Proof.
  exact (completed_line_is_delivered (encode ("lo" ++ String CR ""))
           (mkCLI (mkEditor "hel" false) (mkStream [] false))
           eq_refl eq_refl eq_refl eq_refl).
Defined.
